(** * Bracket bot: a shallow embedding of [bot.py] and its properties

    The development follows the layout of the source file:
    - Python primitives used by the bot (integers, strings, lists);
    - the bracket logic ([next_power_of_two], [build_first_round],
      [build_full_bracket]);
    - the random source of the draw ([random.Random(seed).shuffle], i.e. the
      Mersenne Twister of CPython and the Fisher-Yates loop on top of it);
    - the storage helpers and the command handlers, over an explicit store of
      list objects, so that aliasing of [chat["teams"]] is visible;
    - the properties.

    A Python string is modelled by its UTF-8 encoding ([String.string], a
    sequence of bytes); whitespace and case mapping are those of Python on
    Unicode text, from the Unicode data of CPython 3.11. Python integers are
    [Z]. *)

From Stdlib Require Import ZArith List Ascii String.
From Stdlib Require Import DecimalString Decimal DecimalZ DecimalPos DecimalFacts.
From stdpp Require Import gmap strings list fin_maps.
From Equations Require Import Equations.

Open Scope Z_scope.

(** ** Python primitives *)

(** [len(l)] *)
Definition len {A} (l : list A) : Z := Z.of_nat (length l).

(** [str(z)] and the [{z}] of an f-string, for an integer. *)
Definition str (z : Z) : string := NilZero.string_of_int (Z.to_int z).

(** [int.bit_length] *)
Definition bit_length (x : Z) : Z :=
  if x =? 0 then 0 else Z.log2 (Z.abs x) + 1.

(** [range(0, stop, step)] for a positive [step]. *)
Definition range (stop step : Z) : list Z :=
  (λ k, step * Z.of_nat k) <$> seq 0 (Z.to_nat ((stop + step - 1) / step)).

(** [enumerate(l, start=1)] *)
Definition enumerate1 {A} (l : list A) : list (Z * A) :=
  imap (λ i x, (Z.of_nat i + 1, x)) l.

(** [l[i]] at an index that the caller keeps in range. *)
Definition item (l : list string) (i : Z) : string := l !!! Z.to_nat i.

(** ** Bracket logic *)

Abbreviation Pair := (string * string)%type.
Abbreviation Round := (list Pair).

Definition BYE : string := "BYE".

Definition next_power_of_two (n : Z) : Z :=
  if n <? 1 then 1 else 1 ≪ bit_length (n - 1).

Definition build_first_round (teams : list string) : Round :=
  (λ i, let a := item teams i in
        let b := if i + 1 <? len teams then item teams (i + 1) else BYE in
        (a, b))
    <$> range (len teams) 2.

(** The label [f"Winner of R{r}M{m}"]. *)
Definition winner_of (r m : Z) : string :=
  "Winner of R" +:+ str r +:+ "M" +:+ str m.

(** The body of the [while] loop of [build_full_bracket]: the inner [for]
    that fills [next_round]; [len(rounds)] is read before the append. *)
Definition next_round_of (rounds : list Round) (matches_in_round : Z) : Round :=
  (λ i, let m1 := i + 1 in
        let m2 := i + 2 in
        (winner_of (len rounds) m1, winner_of (len rounds) m2))
    <$> range matches_in_round 2.

Lemma len_range stop step :
  0 < step → len (range stop step) = Z.max 0 ((stop + step - 1) / step).
Proof. intros _. unfold len, range. rewrite length_fmap, length_seq. lia. Qed.

Lemma len_next_round_of rounds m :
  len (next_round_of rounds m) = Z.max 0 ((m + 1) / 2).
Proof.
  unfold next_round_of, len. rewrite length_fmap.
  fold (len (range m 2)). rewrite len_range by lia.
  by replace (m + 2 - 1) with (m + 1) by lia.
Qed.

(** The [while matches_in_round > 1] loop. It terminates because a round of
    more than one match is followed by a strictly shorter one. *)
Equations? placeholder_rounds (rounds : list Round) (matches_in_round : Z)
  : list Round by wf (Z.to_nat matches_in_round) lt :=
  placeholder_rounds rounds m with decide (m > 1) => {
    | left _ =>
        let next_round := next_round_of rounds m in
        placeholder_rounds (rounds ++ [next_round]) (len next_round);
    | right _ => rounds }.
Proof.
  subst next_round. rewrite len_next_round_of.
  assert ((m + 1) / 2 < m) by (apply Z.div_lt_upper_bound; lia). lia.
Qed.

Definition build_full_bracket (seed_teams : list string) : list Round :=
  let n := len seed_teams in
  let target := next_power_of_two n in
  let byes := target - n in
  let teams := seed_teams ++ replicate (Z.to_nat byes) BYE in
  let r1 := build_first_round teams in
  placeholder_rounds [r1] (len r1).

(** ** Strings *)

Definition newline : ascii := "010"%char.

(** [s.replace(old, new)] for one-character [old] and [new]. *)
Fixpoint replace (old new : ascii) (s : string) : string :=
  match s with
  | EmptyString => EmptyString
  | String c s' => String (if decide (c = old) then new else c) (replace old new s')
  end.

(** [s.split(sep)] for a one-character separator: never an empty list. *)
Fixpoint split (sep : ascii) (s : string) : list string :=
  match s with
  | EmptyString => [EmptyString]
  | String c s' =>
      if decide (c = sep) then EmptyString :: split sep s'
      else match split sep s' with
           | [] => [String c EmptyString]
           | p :: ps => String c p :: ps
           end
  end.

(** *** Code points

    A Python string is a sequence of code points; it is modelled by its
    UTF-8 encoding. Splitting, joining and replacing at ASCII characters act
    on the bytes as they act on the code points. Whitespace and case are
    those of the Unicode data of CPython 3.11 (Unicode 14.0). *)

Definition chars (s : string) : list ascii := list_ascii_of_string s.
Definition text (l : list ascii) : string := string_of_list_ascii l.

Definition byte (c : ascii) : Z := Z.of_N (N_of_ascii c).
Definition chr8 (b : Z) : ascii := ascii_of_N (Z.to_N b).

(** The UTF-8 encoding of a code point. *)
Definition utf8 (cp : Z) : list ascii :=
  if cp <? 0x80 then [chr8 cp]
  else if cp <? 0x800 then
    [chr8 (Z.lor 0xC0 (cp ≫ 6)); chr8 (Z.lor 0x80 (Z.land cp 0x3F))]
  else if cp <? 0x10000 then
    [chr8 (Z.lor 0xE0 (cp ≫ 12));
     chr8 (Z.lor 0x80 (Z.land (cp ≫ 6) 0x3F));
     chr8 (Z.lor 0x80 (Z.land cp 0x3F))]
  else
    [chr8 (Z.lor 0xF0 (cp ≫ 18));
     chr8 (Z.lor 0x80 (Z.land (cp ≫ 12) 0x3F));
     chr8 (Z.lor 0x80 (Z.land (cp ≫ 6) 0x3F));
     chr8 (Z.lor 0x80 (Z.land cp 0x3F))].

Definition is_continuation (c : ascii) : bool :=
  (0x80 <=? byte c) && (byte c <? 0xC0).

(** A byte that is not part of the encoding of a code point stands for
    itself, as a value above the code points. *)
Definition stray (b : Z) : Z := 0x110000 + b.

(** The code points of a UTF-8 text. *)
Fixpoint code_points (l : list ascii) : list Z :=
  match l with
  | [] => []
  | c0 :: l1 =>
      let b0 := byte c0 in
      let skip (_ : unit) := stray b0 :: code_points l1 in
      if b0 <? 0x80 then b0 :: code_points l1
      else
        match l1 with
        | c1 :: l2 =>
            if is_continuation c1 then
              let x1 := Z.land (byte c1) 0x3F in
              if (0xC2 <=? b0) && (b0 <? 0xE0) then
                Z.lor (Z.land b0 0x1F ≪ 6) x1 :: code_points l2
              else
                match l2 with
                | c2 :: l3 =>
                    if is_continuation c2 then
                      let x2 := Z.land (byte c2) 0x3F in
                      if (0xE0 <=? b0) && (b0 <? 0xF0) then
                        let cp := Z.lor (Z.lor (Z.land b0 0xF ≪ 12) (x1 ≪ 6)) x2 in
                        if (0x800 <=? cp) && negb ((0xD800 <=? cp) && (cp <? 0xE000))
                        then cp :: code_points l3 else skip tt
                      else
                        match l3 with
                        | c3 :: l4 =>
                            if is_continuation c3 && (0xF0 <=? b0) && (b0 <? 0xF5) then
                              let x3 := Z.land (byte c3) 0x3F in
                              let cp :=
                                Z.lor (Z.lor (Z.lor (Z.land b0 0x7 ≪ 18) (x1 ≪ 12))
                                         (x2 ≪ 6)) x3 in
                              if (0x10000 <=? cp) && (cp <? 0x110000)
                              then cp :: code_points l4 else skip tt
                            else skip tt
                        | [] => skip tt
                        end
                    else skip tt
                | [] => skip tt
                end
            else skip tt
        | [] => skip tt
        end
  end.

Definition of_code_points (cps : list Z) : list ascii :=
  cps ≫= λ cp, if cp <? 0x110000 then utf8 cp else [chr8 (cp - 0x110000)].

(** *** Whitespace

    The code points that [str.isspace] accepts. *)
Definition whitespace_code_points : list Z :=
  [0x9; 0xA; 0xB; 0xC; 0xD; 0x1C; 0x1D; 0x1E; 0x1F; 0x20; 0x85; 0xA0; 0x1680; 0x2000; 0x2001; 0x2002; 0x2003; 0x2004; 0x2005; 0x2006; 0x2007; 0x2008; 0x2009; 0x200A; 0x2028; 0x2029; 0x202F; 0x205F; 0x3000].

Definition whitespace_codes : list (list ascii) := utf8 <$> whitespace_code_points.

(** What is left of [l] after the first of the [codes] that [l] starts
    with. *)
Definition drop_code (codes : list (list ascii)) (l : list ascii)
  : option (list ascii) :=
  match filter (λ u, u `prefix_of` l) codes with
  | u :: _ => Some (drop (length u) l)
  | [] => None
  end.

(** [while i < len and s[i].isspace(): i += 1], at most [fuel] times. *)
Fixpoint lstrip_go (codes : list (list ascii)) (fuel : nat) (l : list ascii)
  : list ascii :=
  match fuel with
  | O => l
  | S fuel' =>
      match drop_code codes l with
      | Some rest => lstrip_go codes fuel' rest
      | None => l
      end
  end.

(** Whitespace taken off the left and off the right end. On a UTF-8 text a
    prefix or a suffix that is the encoding of a code point is that code
    point: an encoding starts with a byte that no encoding continues
    with. *)
Definition lstrip (l : list ascii) : list ascii :=
  lstrip_go whitespace_codes (length l) l.

Definition rstrip (l : list ascii) : list ascii :=
  reverse (lstrip_go (reverse <$> whitespace_codes) (length l) (reverse l)).

(** [s.strip()] *)
Definition strip (s : string) : string := text (rstrip (lstrip (chars s))).

(** *** Lower case

    The simple lower-case mappings as runs [(first, last, step, offset)]. *)
Definition lower_table : list (Z * Z * Z * Z) :=
  [
   (0x41, 0x5A, 1, 32); (0xC0, 0xD6, 1, 32); (0xD8, 0xDE, 1, 32); (0x100, 0x12E, 2, 1);
   (0x132, 0x136, 2, 1); (0x139, 0x147, 2, 1); (0x14A, 0x176, 2, 1); (0x178, 0x178, 1, (-121));
   (0x179, 0x17D, 2, 1); (0x181, 0x181, 1, 210); (0x182, 0x184, 2, 1); (0x186, 0x186, 1, 206);
   (0x187, 0x187, 1, 1); (0x189, 0x18A, 1, 205); (0x18B, 0x18B, 1, 1); (0x18E, 0x18E, 1, 79);
   (0x18F, 0x18F, 1, 202); (0x190, 0x190, 1, 203); (0x191, 0x191, 1, 1); (0x193, 0x193, 1, 205);
   (0x194, 0x194, 1, 207); (0x196, 0x196, 1, 211); (0x197, 0x197, 1, 209); (0x198, 0x198, 1, 1);
   (0x19C, 0x19C, 1, 211); (0x19D, 0x19D, 1, 213); (0x19F, 0x19F, 1, 214); (0x1A0, 0x1A4, 2, 1);
   (0x1A6, 0x1A6, 1, 218); (0x1A7, 0x1A7, 1, 1); (0x1A9, 0x1A9, 1, 218); (0x1AC, 0x1AC, 1, 1);
   (0x1AE, 0x1AE, 1, 218); (0x1AF, 0x1AF, 1, 1); (0x1B1, 0x1B2, 1, 217); (0x1B3, 0x1B5, 2, 1);
   (0x1B7, 0x1B7, 1, 219); (0x1B8, 0x1B8, 1, 1); (0x1BC, 0x1BC, 1, 1); (0x1C4, 0x1C4, 1, 2);
   (0x1C5, 0x1C5, 1, 1); (0x1C7, 0x1C7, 1, 2); (0x1C8, 0x1C8, 1, 1); (0x1CA, 0x1CA, 1, 2);
   (0x1CB, 0x1DB, 2, 1); (0x1DE, 0x1EE, 2, 1); (0x1F1, 0x1F1, 1, 2); (0x1F2, 0x1F4, 2, 1);
   (0x1F6, 0x1F6, 1, (-97)); (0x1F7, 0x1F7, 1, (-56)); (0x1F8, 0x21E, 2, 1); (0x220, 0x220, 1, (-130));
   (0x222, 0x232, 2, 1); (0x23A, 0x23A, 1, 10795); (0x23B, 0x23B, 1, 1); (0x23D, 0x23D, 1, (-163));
   (0x23E, 0x23E, 1, 10792); (0x241, 0x241, 1, 1); (0x243, 0x243, 1, (-195)); (0x244, 0x244, 1, 69);
   (0x245, 0x245, 1, 71); (0x246, 0x24E, 2, 1); (0x370, 0x372, 2, 1); (0x376, 0x376, 1, 1);
   (0x37F, 0x37F, 1, 116); (0x386, 0x386, 1, 38); (0x388, 0x38A, 1, 37); (0x38C, 0x38C, 1, 64);
   (0x38E, 0x38F, 1, 63); (0x391, 0x3A1, 1, 32); (0x3A4, 0x3AB, 1, 32); (0x3CF, 0x3CF, 1, 8);
   (0x3D8, 0x3EE, 2, 1); (0x3F4, 0x3F4, 1, (-60)); (0x3F7, 0x3F7, 1, 1); (0x3F9, 0x3F9, 1, (-7));
   (0x3FA, 0x3FA, 1, 1); (0x3FD, 0x3FF, 1, (-130)); (0x400, 0x40F, 1, 80); (0x410, 0x42F, 1, 32);
   (0x460, 0x480, 2, 1); (0x48A, 0x4BE, 2, 1); (0x4C0, 0x4C0, 1, 15); (0x4C1, 0x4CD, 2, 1);
   (0x4D0, 0x52E, 2, 1); (0x531, 0x556, 1, 48); (0x10A0, 0x10C5, 1, 7264); (0x10C7, 0x10C7, 1, 7264);
   (0x10CD, 0x10CD, 1, 7264); (0x13A0, 0x13EF, 1, 38864); (0x13F0, 0x13F5, 1, 8); (0x1C90, 0x1CBA, 1, (-3008));
   (0x1CBD, 0x1CBF, 1, (-3008)); (0x1E00, 0x1E94, 2, 1); (0x1E9E, 0x1E9E, 1, (-7615)); (0x1EA0, 0x1EFE, 2, 1);
   (0x1F08, 0x1F0F, 1, (-8)); (0x1F18, 0x1F1D, 1, (-8)); (0x1F28, 0x1F2F, 1, (-8)); (0x1F38, 0x1F3F, 1, (-8));
   (0x1F48, 0x1F4D, 1, (-8)); (0x1F59, 0x1F5F, 2, (-8)); (0x1F68, 0x1F6F, 1, (-8)); (0x1F88, 0x1F8F, 1, (-8));
   (0x1F98, 0x1F9F, 1, (-8)); (0x1FA8, 0x1FAF, 1, (-8)); (0x1FB8, 0x1FB9, 1, (-8)); (0x1FBA, 0x1FBB, 1, (-74));
   (0x1FBC, 0x1FBC, 1, (-9)); (0x1FC8, 0x1FCB, 1, (-86)); (0x1FCC, 0x1FCC, 1, (-9)); (0x1FD8, 0x1FD9, 1, (-8));
   (0x1FDA, 0x1FDB, 1, (-100)); (0x1FE8, 0x1FE9, 1, (-8)); (0x1FEA, 0x1FEB, 1, (-112)); (0x1FEC, 0x1FEC, 1, (-7));
   (0x1FF8, 0x1FF9, 1, (-128)); (0x1FFA, 0x1FFB, 1, (-126)); (0x1FFC, 0x1FFC, 1, (-9)); (0x2126, 0x2126, 1, (-7517));
   (0x212A, 0x212A, 1, (-8383)); (0x212B, 0x212B, 1, (-8262)); (0x2132, 0x2132, 1, 28); (0x2160, 0x216F, 1, 16);
   (0x2183, 0x2183, 1, 1); (0x24B6, 0x24CF, 1, 26); (0x2C00, 0x2C2F, 1, 48); (0x2C60, 0x2C60, 1, 1);
   (0x2C62, 0x2C62, 1, (-10743)); (0x2C63, 0x2C63, 1, (-3814)); (0x2C64, 0x2C64, 1, (-10727)); (0x2C67, 0x2C6B, 2, 1);
   (0x2C6D, 0x2C6D, 1, (-10780)); (0x2C6E, 0x2C6E, 1, (-10749)); (0x2C6F, 0x2C6F, 1, (-10783)); (0x2C70, 0x2C70, 1, (-10782));
   (0x2C72, 0x2C72, 1, 1); (0x2C75, 0x2C75, 1, 1); (0x2C7E, 0x2C7F, 1, (-10815)); (0x2C80, 0x2CE2, 2, 1);
   (0x2CEB, 0x2CED, 2, 1); (0x2CF2, 0x2CF2, 1, 1); (0xA640, 0xA66C, 2, 1); (0xA680, 0xA69A, 2, 1);
   (0xA722, 0xA72E, 2, 1); (0xA732, 0xA76E, 2, 1); (0xA779, 0xA77B, 2, 1); (0xA77D, 0xA77D, 1, (-35332));
   (0xA77E, 0xA786, 2, 1); (0xA78B, 0xA78B, 1, 1); (0xA78D, 0xA78D, 1, (-42280)); (0xA790, 0xA792, 2, 1);
   (0xA796, 0xA7A8, 2, 1); (0xA7AA, 0xA7AA, 1, (-42308)); (0xA7AB, 0xA7AB, 1, (-42319)); (0xA7AC, 0xA7AC, 1, (-42315));
   (0xA7AD, 0xA7AD, 1, (-42305)); (0xA7AE, 0xA7AE, 1, (-42308)); (0xA7B0, 0xA7B0, 1, (-42258)); (0xA7B1, 0xA7B1, 1, (-42282));
   (0xA7B2, 0xA7B2, 1, (-42261)); (0xA7B3, 0xA7B3, 1, 928); (0xA7B4, 0xA7C2, 2, 1); (0xA7C4, 0xA7C4, 1, (-48));
   (0xA7C5, 0xA7C5, 1, (-42307)); (0xA7C6, 0xA7C6, 1, (-35384)); (0xA7C7, 0xA7C9, 2, 1); (0xA7D0, 0xA7D0, 1, 1);
   (0xA7D6, 0xA7D8, 2, 1); (0xA7F5, 0xA7F5, 1, 1); (0xFF21, 0xFF3A, 1, 32); (0x10400, 0x10427, 1, 40);
   (0x104B0, 0x104D3, 1, 40); (0x10570, 0x1057A, 1, 39); (0x1057C, 0x1058A, 1, 39); (0x1058C, 0x10592, 1, 39);
   (0x10594, 0x10595, 1, 39); (0x10C80, 0x10CB2, 1, 64); (0x118A0, 0x118BF, 1, 32); (0x16E40, 0x16E5F, 1, 32);
   (0x1E900, 0x1E921, 1, 34)
  ].

(** [_PyUnicode_ToLowerFull]: U+0130 is the one code point whose lower case
    is two code points. *)
Definition to_lower (cp : Z) : list Z :=
  if cp =? 0x130 then [0x69; 0x307]
  else
    match
      list_find (λ '(lo, hi, step, _), lo ≤ cp ≤ hi ∧ (cp - lo) mod step = 0)
                lower_table
    with
    | Some (_, (_, _, _, offset)) => [cp + offset]
    | None => [cp]
    end.

(** The case-ignorable code points. *)
Definition case_ignorable_ranges : list (Z * Z) :=
  [
   (0x27, 0x27); (0x2E, 0x2E); (0x3A, 0x3A); (0x5E, 0x5E); (0x60, 0x60);
   (0xA8, 0xA8); (0xAD, 0xAD); (0xAF, 0xAF); (0xB4, 0xB4); (0xB7, 0xB8);
   (0x2B0, 0x36F); (0x374, 0x375); (0x37A, 0x37A); (0x384, 0x385); (0x387, 0x387);
   (0x483, 0x489); (0x559, 0x559); (0x55F, 0x55F); (0x591, 0x5BD); (0x5BF, 0x5BF);
   (0x5C1, 0x5C2); (0x5C4, 0x5C5); (0x5C7, 0x5C7); (0x5F4, 0x5F4); (0x600, 0x605);
   (0x610, 0x61A); (0x61C, 0x61C); (0x640, 0x640); (0x64B, 0x65F); (0x670, 0x670);
   (0x6D6, 0x6DD); (0x6DF, 0x6E8); (0x6EA, 0x6ED); (0x70F, 0x70F); (0x711, 0x711);
   (0x730, 0x74A); (0x7A6, 0x7B0); (0x7EB, 0x7F5); (0x7FA, 0x7FA); (0x7FD, 0x7FD);
   (0x816, 0x82D); (0x859, 0x85B); (0x888, 0x888); (0x890, 0x891); (0x898, 0x89F);
   (0x8C9, 0x902); (0x93A, 0x93A); (0x93C, 0x93C); (0x941, 0x948); (0x94D, 0x94D);
   (0x951, 0x957); (0x962, 0x963); (0x971, 0x971); (0x981, 0x981); (0x9BC, 0x9BC);
   (0x9C1, 0x9C4); (0x9CD, 0x9CD); (0x9E2, 0x9E3); (0x9FE, 0x9FE); (0xA01, 0xA02);
   (0xA3C, 0xA3C); (0xA41, 0xA42); (0xA47, 0xA48); (0xA4B, 0xA4D); (0xA51, 0xA51);
   (0xA70, 0xA71); (0xA75, 0xA75); (0xA81, 0xA82); (0xABC, 0xABC); (0xAC1, 0xAC5);
   (0xAC7, 0xAC8); (0xACD, 0xACD); (0xAE2, 0xAE3); (0xAFA, 0xAFF); (0xB01, 0xB01);
   (0xB3C, 0xB3C); (0xB3F, 0xB3F); (0xB41, 0xB44); (0xB4D, 0xB4D); (0xB55, 0xB56);
   (0xB62, 0xB63); (0xB82, 0xB82); (0xBC0, 0xBC0); (0xBCD, 0xBCD); (0xC00, 0xC00);
   (0xC04, 0xC04); (0xC3C, 0xC3C); (0xC3E, 0xC40); (0xC46, 0xC48); (0xC4A, 0xC4D);
   (0xC55, 0xC56); (0xC62, 0xC63); (0xC81, 0xC81); (0xCBC, 0xCBC); (0xCBF, 0xCBF);
   (0xCC6, 0xCC6); (0xCCC, 0xCCD); (0xCE2, 0xCE3); (0xD00, 0xD01); (0xD3B, 0xD3C);
   (0xD41, 0xD44); (0xD4D, 0xD4D); (0xD62, 0xD63); (0xD81, 0xD81); (0xDCA, 0xDCA);
   (0xDD2, 0xDD4); (0xDD6, 0xDD6); (0xE31, 0xE31); (0xE34, 0xE3A); (0xE46, 0xE4E);
   (0xEB1, 0xEB1); (0xEB4, 0xEBC); (0xEC6, 0xEC6); (0xEC8, 0xECD); (0xF18, 0xF19);
   (0xF35, 0xF35); (0xF37, 0xF37); (0xF39, 0xF39); (0xF71, 0xF7E); (0xF80, 0xF84);
   (0xF86, 0xF87); (0xF8D, 0xF97); (0xF99, 0xFBC); (0xFC6, 0xFC6); (0x102D, 0x1030);
   (0x1032, 0x1037); (0x1039, 0x103A); (0x103D, 0x103E); (0x1058, 0x1059); (0x105E, 0x1060);
   (0x1071, 0x1074); (0x1082, 0x1082); (0x1085, 0x1086); (0x108D, 0x108D); (0x109D, 0x109D);
   (0x10FC, 0x10FC); (0x135D, 0x135F); (0x1712, 0x1714); (0x1732, 0x1733); (0x1752, 0x1753);
   (0x1772, 0x1773); (0x17B4, 0x17B5); (0x17B7, 0x17BD); (0x17C6, 0x17C6); (0x17C9, 0x17D3);
   (0x17D7, 0x17D7); (0x17DD, 0x17DD); (0x180B, 0x180F); (0x1843, 0x1843); (0x1885, 0x1886);
   (0x18A9, 0x18A9); (0x1920, 0x1922); (0x1927, 0x1928); (0x1932, 0x1932); (0x1939, 0x193B);
   (0x1A17, 0x1A18); (0x1A1B, 0x1A1B); (0x1A56, 0x1A56); (0x1A58, 0x1A5E); (0x1A60, 0x1A60);
   (0x1A62, 0x1A62); (0x1A65, 0x1A6C); (0x1A73, 0x1A7C); (0x1A7F, 0x1A7F); (0x1AA7, 0x1AA7);
   (0x1AB0, 0x1ACE); (0x1B00, 0x1B03); (0x1B34, 0x1B34); (0x1B36, 0x1B3A); (0x1B3C, 0x1B3C);
   (0x1B42, 0x1B42); (0x1B6B, 0x1B73); (0x1B80, 0x1B81); (0x1BA2, 0x1BA5); (0x1BA8, 0x1BA9);
   (0x1BAB, 0x1BAD); (0x1BE6, 0x1BE6); (0x1BE8, 0x1BE9); (0x1BED, 0x1BED); (0x1BEF, 0x1BF1);
   (0x1C2C, 0x1C33); (0x1C36, 0x1C37); (0x1C78, 0x1C7D); (0x1CD0, 0x1CD2); (0x1CD4, 0x1CE0);
   (0x1CE2, 0x1CE8); (0x1CED, 0x1CED); (0x1CF4, 0x1CF4); (0x1CF8, 0x1CF9); (0x1D2C, 0x1D6A);
   (0x1D78, 0x1D78); (0x1D9B, 0x1DFF); (0x1FBD, 0x1FBD); (0x1FBF, 0x1FC1); (0x1FCD, 0x1FCF);
   (0x1FDD, 0x1FDF); (0x1FED, 0x1FEF); (0x1FFD, 0x1FFE); (0x200B, 0x200F); (0x2018, 0x2019);
   (0x2024, 0x2024); (0x2027, 0x2027); (0x202A, 0x202E); (0x2060, 0x2064); (0x2066, 0x206F);
   (0x2071, 0x2071); (0x207F, 0x207F); (0x2090, 0x209C); (0x20D0, 0x20F0); (0x2C7C, 0x2C7D);
   (0x2CEF, 0x2CF1); (0x2D6F, 0x2D6F); (0x2D7F, 0x2D7F); (0x2DE0, 0x2DFF); (0x2E2F, 0x2E2F);
   (0x3005, 0x3005); (0x302A, 0x302D); (0x3031, 0x3035); (0x303B, 0x303B); (0x3099, 0x309E);
   (0x30FC, 0x30FE); (0xA015, 0xA015); (0xA4F8, 0xA4FD); (0xA60C, 0xA60C); (0xA66F, 0xA672);
   (0xA674, 0xA67D); (0xA67F, 0xA67F); (0xA69C, 0xA69F); (0xA6F0, 0xA6F1); (0xA700, 0xA721);
   (0xA770, 0xA770); (0xA788, 0xA78A); (0xA7F2, 0xA7F4); (0xA7F8, 0xA7F9); (0xA802, 0xA802);
   (0xA806, 0xA806); (0xA80B, 0xA80B); (0xA825, 0xA826); (0xA82C, 0xA82C); (0xA8C4, 0xA8C5);
   (0xA8E0, 0xA8F1); (0xA8FF, 0xA8FF); (0xA926, 0xA92D); (0xA947, 0xA951); (0xA980, 0xA982);
   (0xA9B3, 0xA9B3); (0xA9B6, 0xA9B9); (0xA9BC, 0xA9BD); (0xA9CF, 0xA9CF); (0xA9E5, 0xA9E6);
   (0xAA29, 0xAA2E); (0xAA31, 0xAA32); (0xAA35, 0xAA36); (0xAA43, 0xAA43); (0xAA4C, 0xAA4C);
   (0xAA70, 0xAA70); (0xAA7C, 0xAA7C); (0xAAB0, 0xAAB0); (0xAAB2, 0xAAB4); (0xAAB7, 0xAAB8);
   (0xAABE, 0xAABF); (0xAAC1, 0xAAC1); (0xAADD, 0xAADD); (0xAAEC, 0xAAED); (0xAAF3, 0xAAF4);
   (0xAAF6, 0xAAF6); (0xAB5B, 0xAB5F); (0xAB69, 0xAB6B); (0xABE5, 0xABE5); (0xABE8, 0xABE8);
   (0xABED, 0xABED); (0xFB1E, 0xFB1E); (0xFBB2, 0xFBC2); (0xFE00, 0xFE0F); (0xFE13, 0xFE13);
   (0xFE20, 0xFE2F); (0xFE52, 0xFE52); (0xFE55, 0xFE55); (0xFEFF, 0xFEFF); (0xFF07, 0xFF07);
   (0xFF0E, 0xFF0E); (0xFF1A, 0xFF1A); (0xFF3E, 0xFF3E); (0xFF40, 0xFF40); (0xFF70, 0xFF70);
   (0xFF9E, 0xFF9F); (0xFFE3, 0xFFE3); (0xFFF9, 0xFFFB); (0x101FD, 0x101FD); (0x102E0, 0x102E0);
   (0x10376, 0x1037A); (0x10780, 0x10785); (0x10787, 0x107B0); (0x107B2, 0x107BA); (0x10A01, 0x10A03);
   (0x10A05, 0x10A06); (0x10A0C, 0x10A0F); (0x10A38, 0x10A3A); (0x10A3F, 0x10A3F); (0x10AE5, 0x10AE6);
   (0x10D24, 0x10D27); (0x10EAB, 0x10EAC); (0x10F46, 0x10F50); (0x10F82, 0x10F85); (0x11001, 0x11001);
   (0x11038, 0x11046); (0x11070, 0x11070); (0x11073, 0x11074); (0x1107F, 0x11081); (0x110B3, 0x110B6);
   (0x110B9, 0x110BA); (0x110BD, 0x110BD); (0x110C2, 0x110C2); (0x110CD, 0x110CD); (0x11100, 0x11102);
   (0x11127, 0x1112B); (0x1112D, 0x11134); (0x11173, 0x11173); (0x11180, 0x11181); (0x111B6, 0x111BE);
   (0x111C9, 0x111CC); (0x111CF, 0x111CF); (0x1122F, 0x11231); (0x11234, 0x11234); (0x11236, 0x11237);
   (0x1123E, 0x1123E); (0x112DF, 0x112DF); (0x112E3, 0x112EA); (0x11300, 0x11301); (0x1133B, 0x1133C);
   (0x11340, 0x11340); (0x11366, 0x1136C); (0x11370, 0x11374); (0x11438, 0x1143F); (0x11442, 0x11444);
   (0x11446, 0x11446); (0x1145E, 0x1145E); (0x114B3, 0x114B8); (0x114BA, 0x114BA); (0x114BF, 0x114C0);
   (0x114C2, 0x114C3); (0x115B2, 0x115B5); (0x115BC, 0x115BD); (0x115BF, 0x115C0); (0x115DC, 0x115DD);
   (0x11633, 0x1163A); (0x1163D, 0x1163D); (0x1163F, 0x11640); (0x116AB, 0x116AB); (0x116AD, 0x116AD);
   (0x116B0, 0x116B5); (0x116B7, 0x116B7); (0x1171D, 0x1171F); (0x11722, 0x11725); (0x11727, 0x1172B);
   (0x1182F, 0x11837); (0x11839, 0x1183A); (0x1193B, 0x1193C); (0x1193E, 0x1193E); (0x11943, 0x11943);
   (0x119D4, 0x119D7); (0x119DA, 0x119DB); (0x119E0, 0x119E0); (0x11A01, 0x11A0A); (0x11A33, 0x11A38);
   (0x11A3B, 0x11A3E); (0x11A47, 0x11A47); (0x11A51, 0x11A56); (0x11A59, 0x11A5B); (0x11A8A, 0x11A96);
   (0x11A98, 0x11A99); (0x11C30, 0x11C36); (0x11C38, 0x11C3D); (0x11C3F, 0x11C3F); (0x11C92, 0x11CA7);
   (0x11CAA, 0x11CB0); (0x11CB2, 0x11CB3); (0x11CB5, 0x11CB6); (0x11D31, 0x11D36); (0x11D3A, 0x11D3A);
   (0x11D3C, 0x11D3D); (0x11D3F, 0x11D45); (0x11D47, 0x11D47); (0x11D90, 0x11D91); (0x11D95, 0x11D95);
   (0x11D97, 0x11D97); (0x11EF3, 0x11EF4); (0x13430, 0x13438); (0x16AF0, 0x16AF4); (0x16B30, 0x16B36);
   (0x16B40, 0x16B43); (0x16F4F, 0x16F4F); (0x16F8F, 0x16F9F); (0x16FE0, 0x16FE1); (0x16FE3, 0x16FE4);
   (0x1AFF0, 0x1AFF3); (0x1AFF5, 0x1AFFB); (0x1AFFD, 0x1AFFE); (0x1BC9D, 0x1BC9E); (0x1BCA0, 0x1BCA3);
   (0x1CF00, 0x1CF2D); (0x1CF30, 0x1CF46); (0x1D167, 0x1D169); (0x1D173, 0x1D182); (0x1D185, 0x1D18B);
   (0x1D1AA, 0x1D1AD); (0x1D242, 0x1D244); (0x1DA00, 0x1DA36); (0x1DA3B, 0x1DA6C); (0x1DA75, 0x1DA75);
   (0x1DA84, 0x1DA84); (0x1DA9B, 0x1DA9F); (0x1DAA1, 0x1DAAF); (0x1E000, 0x1E006); (0x1E008, 0x1E018);
   (0x1E01B, 0x1E021); (0x1E023, 0x1E024); (0x1E026, 0x1E02A); (0x1E130, 0x1E13D); (0x1E2AE, 0x1E2AE);
   (0x1E2EC, 0x1E2EF); (0x1E8D0, 0x1E8D6); (0x1E944, 0x1E94B); (0x1F3FB, 0x1F3FF); (0xE0001, 0xE0001);
   (0xE0020, 0xE007F); (0xE0100, 0xE01EF)
  ].

(** The cased code points that are not case-ignorable. *)
Definition cased_ranges : list (Z * Z) :=
  [
   (0x41, 0x5A); (0x61, 0x7A); (0xAA, 0xAA); (0xB5, 0xB5); (0xBA, 0xBA);
   (0xC0, 0xD6); (0xD8, 0xF6); (0xF8, 0x1BA); (0x1BC, 0x1BF); (0x1C4, 0x293);
   (0x295, 0x2AF); (0x370, 0x373); (0x376, 0x377); (0x37B, 0x37D); (0x37F, 0x37F);
   (0x386, 0x386); (0x388, 0x38A); (0x38C, 0x38C); (0x38E, 0x3A1); (0x3A3, 0x3F5);
   (0x3F7, 0x481); (0x48A, 0x52F); (0x531, 0x556); (0x560, 0x588); (0x10A0, 0x10C5);
   (0x10C7, 0x10C7); (0x10CD, 0x10CD); (0x10D0, 0x10FA); (0x10FD, 0x10FF); (0x13A0, 0x13F5);
   (0x13F8, 0x13FD); (0x1C80, 0x1C88); (0x1C90, 0x1CBA); (0x1CBD, 0x1CBF); (0x1D00, 0x1D2B);
   (0x1D6B, 0x1D77); (0x1D79, 0x1D9A); (0x1E00, 0x1F15); (0x1F18, 0x1F1D); (0x1F20, 0x1F45);
   (0x1F48, 0x1F4D); (0x1F50, 0x1F57); (0x1F59, 0x1F59); (0x1F5B, 0x1F5B); (0x1F5D, 0x1F5D);
   (0x1F5F, 0x1F7D); (0x1F80, 0x1FB4); (0x1FB6, 0x1FBC); (0x1FBE, 0x1FBE); (0x1FC2, 0x1FC4);
   (0x1FC6, 0x1FCC); (0x1FD0, 0x1FD3); (0x1FD6, 0x1FDB); (0x1FE0, 0x1FEC); (0x1FF2, 0x1FF4);
   (0x1FF6, 0x1FFC); (0x2102, 0x2102); (0x2107, 0x2107); (0x210A, 0x2113); (0x2115, 0x2115);
   (0x2119, 0x211D); (0x2124, 0x2124); (0x2126, 0x2126); (0x2128, 0x2128); (0x212A, 0x212D);
   (0x212F, 0x2134); (0x2139, 0x2139); (0x213C, 0x213F); (0x2145, 0x2149); (0x214E, 0x214E);
   (0x2160, 0x217F); (0x2183, 0x2184); (0x24B6, 0x24E9); (0x2C00, 0x2C7B); (0x2C7E, 0x2CE4);
   (0x2CEB, 0x2CEE); (0x2CF2, 0x2CF3); (0x2D00, 0x2D25); (0x2D27, 0x2D27); (0x2D2D, 0x2D2D);
   (0xA640, 0xA66D); (0xA680, 0xA69B); (0xA722, 0xA76F); (0xA771, 0xA787); (0xA78B, 0xA78E);
   (0xA790, 0xA7CA); (0xA7D0, 0xA7D1); (0xA7D3, 0xA7D3); (0xA7D5, 0xA7D9); (0xA7F5, 0xA7F6);
   (0xA7FA, 0xA7FA); (0xAB30, 0xAB5A); (0xAB60, 0xAB68); (0xAB70, 0xABBF); (0xFB00, 0xFB06);
   (0xFB13, 0xFB17); (0xFF21, 0xFF3A); (0xFF41, 0xFF5A); (0x10400, 0x1044F); (0x104B0, 0x104D3);
   (0x104D8, 0x104FB); (0x10570, 0x1057A); (0x1057C, 0x1058A); (0x1058C, 0x10592); (0x10594, 0x10595);
   (0x10597, 0x105A1); (0x105A3, 0x105B1); (0x105B3, 0x105B9); (0x105BB, 0x105BC); (0x10C80, 0x10CB2);
   (0x10CC0, 0x10CF2); (0x118A0, 0x118DF); (0x16E40, 0x16E7F); (0x1D400, 0x1D454); (0x1D456, 0x1D49C);
   (0x1D49E, 0x1D49F); (0x1D4A2, 0x1D4A2); (0x1D4A5, 0x1D4A6); (0x1D4A9, 0x1D4AC); (0x1D4AE, 0x1D4B9);
   (0x1D4BB, 0x1D4BB); (0x1D4BD, 0x1D4C3); (0x1D4C5, 0x1D505); (0x1D507, 0x1D50A); (0x1D50D, 0x1D514);
   (0x1D516, 0x1D51C); (0x1D51E, 0x1D539); (0x1D53B, 0x1D53E); (0x1D540, 0x1D544); (0x1D546, 0x1D546);
   (0x1D54A, 0x1D550); (0x1D552, 0x1D6A5); (0x1D6A8, 0x1D6C0); (0x1D6C2, 0x1D6DA); (0x1D6DC, 0x1D6FA);
   (0x1D6FC, 0x1D714); (0x1D716, 0x1D734); (0x1D736, 0x1D74E); (0x1D750, 0x1D76E); (0x1D770, 0x1D788);
   (0x1D78A, 0x1D7A8); (0x1D7AA, 0x1D7C2); (0x1D7C4, 0x1D7CB); (0x1DF00, 0x1DF09); (0x1DF0B, 0x1DF1E);
   (0x1E900, 0x1E943); (0x1F130, 0x1F149); (0x1F150, 0x1F169); (0x1F170, 0x1F189)
  ].

Definition in_ranges (ranges : list (Z * Z)) (cp : Z) : bool :=
  bool_decide (Exists (λ '(lo, hi), lo ≤ cp ≤ hi) ranges).

Fixpoint skip_case_ignorable (cps : list Z) : list Z :=
  match cps with
  | [] => []
  | cp :: rest =>
      if in_ranges case_ignorable_ranges cp then skip_case_ignorable rest else cps
  end.

(** [handle_capital_sigma]: the capital sigma is final when a cased letter
    comes before it and none comes after it, case-ignorable code points
    apart. [before] is the text before it, nearest code point first. *)
Definition final_sigma (before after : list Z) : bool :=
  match skip_case_ignorable before with
  | [] => false
  | cp :: _ =>
      in_ranges cased_ranges cp &&
      match skip_case_ignorable after with
      | [] => true
      | cp' :: _ => negb (in_ranges cased_ranges cp')
      end
  end.

Fixpoint lower_code_points (before : list Z) (cps : list Z) : list Z :=
  match cps with
  | [] => []
  | cp :: rest =>
      (if cp =? 0x3A3 then [if final_sigma before rest then 0x3C2 else 0x3C3]
       else to_lower cp)
      ++ lower_code_points (cp :: before) rest
  end.

(** [s.lower()] *)
Definition lower (s : string) : string :=
  text (of_code_points (lower_code_points [] (code_points (chars s)))).

(** [sep.join(l)] *)
Fixpoint join (sep : string) (l : list string) : string :=
  match l with
  | [] => EmptyString
  | [x] => x
  | x :: l' => x +:+ sep +:+ join sep l'
  end.

(** [s.partition(" ")[2]]: what follows the first space, or the empty string. *)
Fixpoint after_first_space (s : string) : string :=
  match s with
  | EmptyString => EmptyString
  | String c s' => if decide (c = " "%char) then s' else after_first_space s'
  end.

(** ** Team registry *)

(** One turn of the deduplication loop of [_normalize_teams]; the state is
    the pair of the set [seen] and the list [uniq]. *)
Definition dedupe_step (st : gset string * list string) (t : string)
  : gset string * list string :=
  let '(seen, uniq) := st in
  if decide (lower t ∈ seen) then (seen, uniq)
  else ({[lower t]} ∪ seen, uniq ++ [t]).

Definition _normalize_teams (raw : string) : list string :=
  let parts := strip <$> split ";" (replace "," ";" (replace newline ";" raw)) in
  let teams := filter (λ p, p ≠ EmptyString) parts in
  let '(seen, uniq) := foldl dedupe_step (∅, []) teams in
  uniq.

(** ** The random source of the draw

    [random.Random(seed)] is CPython's Mersenne Twister (MT19937): a state of
    624 words of 32 bits and an index. Unsigned 32-bit arithmetic is written
    out with [u32]. *)

Module MT.
Definition N : nat := 624.
Definition M : nat := 397.
Definition MATRIX_A : Z := 0x9908b0df.
Definition UPPER_MASK : Z := 0x80000000.
Definition LOWER_MASK : Z := 0x7fffffff.

Definition u32 (x : Z) : Z := Z.land x 0xffffffff.

Record state := State { mt : list Z; index : nat }.

Fixpoint init_genrand_loop (count : nat) (mti : Z) (prev : Z) : list Z :=
  match count with
  | O => []
  | S count' =>
      let w := u32 (1812433253 * Z.lxor prev (prev ≫ 30) + mti) in
      w :: init_genrand_loop count' (mti + 1) w
  end.

Definition init_genrand (s : Z) : state :=
  State (s :: init_genrand_loop (N - 1) 1 s) N.

(** [if (i >= N) { mt[0] = mt[N-1]; i = 1; }] *)
Definition wrap_index (i : nat) (mt : list Z) : nat * list Z :=
  if decide (N ≤ i)%nat then (1%nat, <[0%nat := mt !!! (N - 1)%nat]> mt)
  else (i, mt).

Fixpoint init_by_array_mix (k : nat) (i j : nat) (key : list Z) (mt : list Z)
  : nat * list Z :=
  match k with
  | O => (i, mt)
  | S k' =>
      let p := mt !!! (i - 1)%nat in
      let w := u32 (Z.lxor (mt !!! i) (u32 (Z.lxor p (p ≫ 30) * 1664525))
                    + key !!! j + Z.of_nat j) in
      let '(i', mt') := wrap_index (S i) (<[i := w]> mt) in
      let j' := if decide (length key ≤ S j)%nat then 0%nat else S j in
      init_by_array_mix k' i' j' key mt'
  end.

Fixpoint init_by_array_finish (k : nat) (i : nat) (mt : list Z) : list Z :=
  match k with
  | O => mt
  | S k' =>
      let p := mt !!! (i - 1)%nat in
      let w := u32 (Z.lxor (mt !!! i) (u32 (Z.lxor p (p ≫ 30) * 1566083941))
                    - Z.of_nat i) in
      let '(i', mt') := wrap_index (S i) (<[i := w]> mt) in
      init_by_array_finish k' i' mt'
  end.

Definition init_by_array (key : list Z) : state :=
  let st := init_genrand 19650218 in
  let '(i, mt1) := init_by_array_mix (Nat.max N (length key)) 1 0 key (mt st) in
  let mt2 := init_by_array_finish (N - 1) i mt1 in
  State (<[0%nat := 0x80000000]> mt2) (index st).

(** One word of the regeneration of the state:
    [y = (mt[kk]&UPPER_MASK)|(mt[kk1]&LOWER_MASK);
     mt[kk] = mt[kkm] ^ (y >> 1) ^ mag01[y & 1]]. *)
Definition twist_word (kk kk1 kkm : nat) (mt : list Z) : list Z :=
  let y := Z.lor (Z.land (mt !!! kk) UPPER_MASK) (Z.land (mt !!! kk1) LOWER_MASK) in
  let mag := if Z.land y 1 =? 0 then 0 else MATRIX_A in
  <[kk := Z.lxor (Z.lxor (mt !!! kkm) (y ≫ 1)) mag]> mt.

Definition twist (mt : list Z) : list Z :=
  let mt1 := foldl (λ mt kk, twist_word kk (kk + 1) (kk + M) mt) mt
               (seq 0 (N - M)) in
  let mt2 := foldl (λ mt kk, twist_word kk (kk + 1) (kk + M - N) mt) mt1
               (seq (N - M) (M - 1)) in
  twist_word (N - 1) 0 (M - 1) mt2.

Definition genrand_uint32 (st : state) : Z * state :=
  let '(mt, idx) := if decide (N ≤ index st)%nat then (twist (mt st), 0%nat)
                    else (mt st, index st) in
  let y := mt !!! idx in
  let y := Z.lxor y (y ≫ 11) in
  let y := Z.lxor y (Z.land (y ≪ 7) 0x9d2c5680) in
  let y := Z.lxor y (Z.land (y ≪ 15) 0xefc60000) in
  let y := Z.lxor y (y ≫ 18) in
  (u32 y, State mt (S idx)).

(** The key of [seed(a)] for an integer [a]: the 32-bit words of [abs(a)],
    least significant first, at least one word. *)
Fixpoint key_words (n : nat) (a : Z) : list Z :=
  match n with
  | O => []
  | S n' => u32 a :: key_words n' (a ≫ 32)
  end.

Definition seed (a : Z) : state :=
  let n := Z.abs a in
  let bits := bit_length n in
  let keyused := if bits =? 0 then 1 else (bits - 1) / 32 + 1 in
  init_by_array (key_words (Z.to_nat keyused) n).

Fixpoint getrandbits_words (words : nat) (k : Z) (st : state) : Z * state :=
  match words with
  | O => (0, st)
  | S words' =>
      let '(r, st1) := genrand_uint32 st in
      let r := if k <? 32 then r ≫ (32 - k) else r in
      let '(hi, st2) := getrandbits_words words' (k - 32) st1 in
      (Z.lor r (hi ≪ 32), st2)
  end.

Definition getrandbits (k : Z) (st : state) : Z * state :=
  if k =? 0 then (0, st)
  else if k <=? 32 then
    let '(r, st') := genrand_uint32 st in (r ≫ (32 - k), st')
  else getrandbits_words (Z.to_nat ((k - 1) / 32 + 1)) k st.

(** [r = getrandbits(k); while r >= n: r = getrandbits(k)]. The loop has no
    bound in the source; [fuel] bounds the number of tries and [None] is
    the run that has not left the loop within it. *)
Fixpoint randbelow_loop (fuel : nat) (n k : Z) (st : state) : option (Z * state) :=
  match fuel with
  | O => None
  | S fuel' =>
      let '(r, st') := getrandbits k st in
      if r >=? n then randbelow_loop fuel' n k st' else Some (r, st')
  end.

Definition randbelow (fuel : nat) (n : Z) (st : state) : option (Z * state) :=
  randbelow_loop fuel n (bit_length n) st.
End MT.

(* The generator is never unfolded by simplification. *)
Arguments MT.twist : simpl never.
Arguments MT.genrand_uint32 : simpl never.
Arguments MT.getrandbits : simpl never.
Arguments MT.init_by_array : simpl never.
Arguments MT.seed : simpl never.

(** [for i in reversed(range(1, len(x))): j = randbelow(i + 1);
     x[i], x[j] = x[j], x[i]] *)
Fixpoint shuffle_loop (fuel : nat) (i : nat) (x : list string) (st : MT.state)
  : option (list string) :=
  match i with
  | O => Some x
  | S i' =>
      '(j, st') ← MT.randbelow fuel (Z.of_nat i + 1) st;
      xi ← x !! i;
      xj ← x !! Z.to_nat j;
      shuffle_loop fuel i' (<[Z.to_nat j := xi]> (<[i := xj]> x)) st'
  end.

(** [random.Random(seed).shuffle(x)] on the content of the list [x]. *)
Definition shuffle (fuel : nat) (seed : Z) (x : list string) : option (list string) :=
  shuffle_loop fuel (length x - 1) x (MT.seed seed).

(** ** Storage

    [DATA_FILE] holds one JSON object per chat key. In memory, the chat
    dictionaries are reached through the [db] dictionary by their key, and a
    dictionary's ["teams"] entry is a reference to a list object: the lists
    live in a store of their own, so that an update through one name of a
    list is seen through every other name of it. *)

Record Bracket := mkBracket { seed : Z; rounds : list Round }.

(** A chat as it is written to [DATA_FILE]. *)
Record chat_record := ChatRecord {
  name : option string;
  teams : list string;
  bracket : option Bracket;
  created_at : string }.

(** The identity of a list object: the one that [json.load] built for the
    chat of a key, or the [n]-th list created since. *)
Inductive addr := Loaded (key : string) | Fresh (n : nat).

#[global] Instance addr_eq_dec : EqDecision addr.
Proof. solve_decision. Defined.

#[global] Instance addr_countable : Countable addr.
Proof.
  refine (inj_countable'
            (λ a, match a with Loaded k => inl k | Fresh n => inr n end)
            (λ s, match s with inl k => Loaded k | inr n => Fresh n end) _).
  by intros [].
Defined.

#[global] Instance Loaded_inj : Inj (=) (=) Loaded.
Proof. by intros ?? [= ->]. Qed.

(** A chat dictionary in memory. *)
Record chat_dict := ChatDict {
  d_name : option string;
  d_teams : addr;
  d_bracket : option Bracket;
  d_created_at : string }.

#[global] Instance chat_dict_inhabited : Inhabited chat_dict :=
  populate (ChatDict None (Fresh 0) None EmptyString).

Record memory := Memory {
  db : gmap string chat_dict;
  lists : gmap addr (list string);
  next_fresh : nat }.

(** The content of [DATA_FILE]; [None] is a file that is missing or that
    cannot be read. *)
Abbreviation data_file := (option (gmap string chat_record)).

Definition load_chat (key : string) (r : chat_record) : chat_dict :=
  ChatDict (name r) (Loaded key) (bracket r) (created_at r).

Definition load_db (file : data_file) : memory :=
  let content := default ∅ file in
  Memory (map_imap (λ key r, Some (load_chat key r)) content)
         (kmap Loaded (teams <$> content)) 0.

(** [l] for a reference [a] to a list. *)
Definition list_get (m : memory) (a : addr) : list string := lists m !!! a.

Definition list_set (a : addr) (l : list string) (m : memory) : memory :=
  Memory (db m) (<[a := l]> (lists m)) (next_fresh m).

(** [a.append(t)] *)
Definition list_append (a : addr) (t : string) (m : memory) : memory :=
  list_set a (list_get m a ++ [t]) m.

(** A new list object, as the literal [[]] makes one. *)
Definition new_list (l : list string) (m : memory) : addr * memory :=
  (Fresh (next_fresh m),
   Memory (db m) (<[Fresh (next_fresh m) := l]> (lists m)) (S (next_fresh m))).

Definition dump_chat (m : memory) (d : chat_dict) : chat_record :=
  ChatRecord (d_name d) (list_get m (d_teams d)) (d_bracket d) (d_created_at d).

Definition save_db (m : memory) : data_file := Some (dump_chat m <$> db m).

(** [db[key]] for a key that is in [db]. *)
Definition chat_get (m : memory) (key : string) : chat_dict := db m !!! key.

Definition set_name (v : option string) (d : chat_dict) : chat_dict :=
  ChatDict v (d_teams d) (d_bracket d) (d_created_at d).
Definition set_teams (v : addr) (d : chat_dict) : chat_dict :=
  ChatDict (d_name d) v (d_bracket d) (d_created_at d).
Definition set_bracket (v : option Bracket) (d : chat_dict) : chat_dict :=
  ChatDict (d_name d) (d_teams d) v (d_created_at d).

(** [chat[field] = v] through the reference [chat = db[key]]. *)
Definition chat_set (key : string) (f : chat_dict → chat_dict) (m : memory) : memory :=
  Memory (alter f key (db m)) (lists m) (next_fresh m).

(** [get_chat(db, chat_id)]; [now] is [datetime.utcnow().isoformat()]. The
    result is the key, which is the reference to the chat dictionary. *)
Definition get_chat (chat_id : Z) (now : string) (m : memory) : string * memory :=
  let key := str chat_id in
  match db m !! key with
  | Some _ => (key, m)
  | None =>
      let '(l, m) := new_list [] m in
      (key, Memory (<[key := ChatDict None l None now]> (db m))
                   (lists m) (next_fresh m))
  end.

(** ** Command handlers

    A handler reads the update (chat id, message text, arguments), the clock
    and the content of [DATA_FILE]; it leaves a content of [DATA_FILE] and
    the replies it sent. The wording of the replies is not modelled: a reply
    is the kind of message with the values that the text is built from. *)

Inductive reply :=
| ReplyCreated (tournament : string)
| ReplyAddUsage
| ReplyUnrecognised
| ReplyAdded (added total : Z)
| ReplyListEmpty
| ReplyList (names : list string)
| ReplyNeedTwoTeams
| ReplyDrawn (drawn_seed : Z) (r1 : Round)
| ReplyNoBracket
| ReplyPairs (r1 : Round)
| ReplyBracket (title : option string) (all_rounds : list Round)
| ReplyDocument (rows : list (list string)) (filename : string)
| ReplyReset.

Inductive exn := IndexError.

Record result := Result {
  file_after : data_file;
  replies : list reply;
  raised : option exn }.

Definition cmd_new (chat_id : Z) (args : list string) (now today : string)
    (file : data_file) : result :=
  let db := load_db file in
  let '(chat, db) := get_chat chat_id now db in
  let name :=
    let s := strip (join " " args) in
    if decide (s = EmptyString) then "Tournament " +:+ today else s in
  let db := chat_set chat (set_name (Some name)) db in
  let '(l, db) := new_list [] db in
  let db := chat_set chat (set_teams l) db in
  let db := chat_set chat (set_bracket None) db in
  Result (save_db db) [ReplyCreated name] None.

Definition cmd_add (chat_id : Z) (args : list string) (text : string)
    (now : string) (file : data_file) : result :=
  let db := load_db file in
  let '(chat, db) := get_chat chat_id now db in
  if decide (args = [] ∧ strip (after_first_space text) = EmptyString)
  then Result file [ReplyAddUsage] None
  else
    let raw := after_first_space text in
    let new := _normalize_teams raw in
    if decide (new = []) then Result file [ReplyUnrecognised] None
    else
      let before := len (list_get db (d_teams (chat_get db chat))) in
      let existing_low : gset string :=
        list_to_set (lower <$> list_get db (d_teams (chat_get db chat))) in
      let db :=
        foldl (λ db t,
                 if decide (lower t ∈ existing_low) then db
                 else list_append (d_teams (chat_get db chat)) t db)
              db new in
      let file := save_db db in
      let total := len (list_get db (d_teams (chat_get db chat))) in
      let added := total - before in
      Result file [ReplyAdded added total] None.

Definition cmd_list (chat_id : Z) (now : string) (file : data_file) : result :=
  let db := load_db file in
  let '(chat, db) := get_chat chat_id now db in
  let teams := d_teams (chat_get db chat) in
  if decide (list_get db teams = []) then Result file [ReplyListEmpty] None
  else Result file [ReplyList (list_get db teams)] None.

(** [cmd_draw]; [drawn] is the value of [random.randint(100000, 999999)].
    [None] is the run that stays in the rejection loop of the shuffle for
    more than [fuel] tries. *)
Definition cmd_draw (fuel : nat) (drawn : Z) (chat_id : Z) (now : string)
    (file : data_file) : option result :=
  let db := load_db file in
  let '(chat, db) := get_chat chat_id now db in
  let teams := d_teams (chat_get db chat) in
  if decide (len (list_get db teams) < 2)
  then Some (Result file [ReplyNeedTwoTeams] None)
  else
    let seed := drawn in
    shuffled ← shuffle fuel seed (list_get db teams);
    let db := list_set teams shuffled db in
    let rounds := build_full_bracket (list_get db teams) in
    let db := chat_set chat (set_bracket (Some (mkBracket seed rounds))) db in
    let file := save_db db in
    match rounds !! 0%nat with
    | Some r1 => Some (Result file [ReplyDrawn seed r1] None)
    | None => Some (Result file [] (Some IndexError))
    end.

Definition cmd_pairs (chat_id : Z) (now : string) (file : data_file) : result :=
  let db := load_db file in
  let '(chat, db) := get_chat chat_id now db in
  match d_bracket (chat_get db chat) with
  | None => Result file [ReplyNoBracket] None
  | Some br =>
      match rounds br !! 0%nat with
      | Some r1 => Result file [ReplyPairs r1] None
      | None => Result file [] (Some IndexError)
      end
  end.

Definition cmd_bracket (chat_id : Z) (now : string) (file : data_file) : result :=
  let db := load_db file in
  let '(chat, db) := get_chat chat_id now db in
  match d_bracket (chat_get db chat) with
  | None => Result file [ReplyNoBracket] None
  | Some br =>
      Result file [ReplyBracket (d_name (chat_get db chat)) (rounds br)] None
  end.

(** [writer.writerow(row)] on the rows written so far; the fields are the
    texts that the writer makes of the values. *)
Definition writerow (buf : list (list string)) (row : list string)
  : list (list string) := buf ++ [row].

(** The two nested [for] loops of [cmd_export]. *)
Definition export_rows (buf : list (list string)) (rounds : list Round)
  : list (list string) :=
  foldl (λ buf '(r_idx, rnd),
           foldl (λ buf '(m_idx, (a, b)),
                    writerow buf [str r_idx; str m_idx; a; b])
                 buf (enumerate1 rnd))
        buf (enumerate1 rounds).

Definition cmd_export (chat_id : Z) (now : string) (file : data_file) : result :=
  let db := load_db file in
  let '(chat, db) := get_chat chat_id now db in
  match d_bracket (chat_get db chat) with
  | None => Result file [ReplyNoBracket] None
  | Some br =>
      let buf := writerow [] ["Round"; "Match"; "Team A"; "Team B"] in
      let buf := export_rows buf (rounds br) in
      let title :=
        match d_name (chat_get db chat) with
        | Some n => if decide (n = EmptyString) then "tournament" else n
        | None => "tournament"
        end in
      let filename := replace " " "_" title +:+ "_bracket.csv" in
      Result file [ReplyDocument buf filename] None
  end.

Definition cmd_reset (chat_id : Z) (now : string) (file : data_file) : result :=
  let db := load_db file in
  let '(chat, db) := get_chat chat_id now db in
  let '(l, db) := new_list [] db in
  let db := chat_set chat (set_teams l) db in
  let db := chat_set chat (set_bracket None) db in
  Result (save_db db) [ReplyReset] None.

(** ** Rendering *)

Definition nl : string := String newline EmptyString.

Definition render_pairs_text (pairs : Round) (round_no : Z) : string :=
  let lines :=
    ["*Round " +:+ str round_no +:+ "*:"]
    ++ ((λ '(idx, (a, b)),
           let vs := a +:+ " — " +:+ b in
           "M" +:+ str idx +:+ ". " +:+ vs) <$> enumerate1 pairs) in
  join nl lines.

Definition render_bracket_tree (rounds : list Round) : string :=
  let parts :=
    foldl (λ parts '(i, rnd),
             let parts := parts ++ [render_pairs_text rnd i] in
             if decide (i ≠ len rounds) then parts ++ [EmptyString] else parts)
          [] (enumerate1 rounds) in
  join nl parts.

(** [text[i:j]] for [0 <= i <= j]; the text is a sequence of characters. *)
Definition slice {A} (text : list A) (i j : Z) : list A :=
  take (Z.to_nat (j - i)) (drop (Z.to_nat i) text).

Definition MAX : Z := 3500.

(** The messages of [cmd_bracket], lines 266-268:
    [for i in range(0, len(text), MAX): reply_text(text[i:i+MAX])]. *)
Definition text_chunks {A} (text : list A) : list (list A) :=
  (λ i, slice text i (i + MAX)) <$> range (len text) MAX.

(** ** Definitions used to state the properties *)

(** The value of a decimal digit. *)
Definition digit_value (c : ascii) : option Z :=
  let b := byte c in
  if (48 <=? b) && (b <=? 57) then Some (b - 48) else None.

(** The number that a text of decimal digits denotes, read from the left
    with [acc] the value of the digits read so far. *)
Fixpoint numeral_go (s : string) (acc : Z) : option Z :=
  match s with
  | EmptyString => Some acc
  | String c s' =>
      match digit_value c with
      | Some d => numeral_go s' (10 * acc + d)
      | None => None
      end
  end.

(** The number that a non-empty text of decimal digits denotes. *)
Definition numeral (s : string) : option Z :=
  match s with
  | EmptyString => None
  | _ => numeral_go s 0
  end.

(** The rounds that the [while] loop adds after round [r], when round [r]
    has [2 ^ k] matches. *)
Fixpoint later_rounds (r : Z) (k : nat) : list Round :=
  match k with
  | O => []
  | S k' =>
      ((λ i, (winner_of r (i + 1), winner_of r (i + 2))) <$> range (2 ^ Z.of_nat k) 2)
        :: later_rounds (r + 1) k'
  end.

(** The round made of the winners of the [m] matches of round [r]. *)
Definition winners_round (r m : Z) : Round :=
  (λ i, (winner_of r (i + 1), winner_of r (i + 2))) <$> range m 2.

(** The list [teams] of [build_full_bracket]: the input and the BYEs. *)
Definition padded (seed_teams : list string) : list string :=
  seed_teams ++ replicate (Z.to_nat (next_power_of_two (len seed_teams) - len seed_teams)) BYE.

(** Every pair of round 1 with a BYE in it is the last team of the input
    against BYE. *)
Definition bye_faces_last_team (seed_teams : list string) : Prop :=
  ∀ r1 p, build_full_bracket seed_teams !! 0%nat = Some r1 → p ∈ r1 →
          p.1 = BYE ∨ p.2 = BYE →
          ∃ t, last seed_teams = Some t ∧ p = (t, BYE).

(** A concatenation of [codes]. *)
Inductive blank (codes : list (list ascii)) : list ascii → Prop :=
| blank_nil : blank codes []
| blank_cons u l : u ∈ codes → blank codes l → blank codes (u ++ l).

(** A text that is made of whitespace only. *)
Definition whitespace_only (s : string) : Prop := blank whitespace_codes (chars s).

(** The first, the last code point of the text is whitespace. *)
Definition starts_with_whitespace (s : string) : Prop :=
  ∃ u, u ∈ whitespace_codes ∧ u `prefix_of` chars s.
Definition ends_with_whitespace (s : string) : Prop :=
  ∃ u, u ∈ whitespace_codes ∧ u `suffix_of` chars s.

(** [t] is [p] without the whitespace at its two ends. *)
Definition trimmed (p t : string) : Prop :=
  ∃ ws1 ws2,
    p = ws1 +:+ t +:+ ws2 ∧ whitespace_only ws1 ∧ whitespace_only ws2 ∧
    ¬ starts_with_whitespace t ∧ ¬ ends_with_whitespace t.

(** The small letter of an ASCII capital letter; other characters are kept. *)
Definition ascii_lower (c : ascii) : ascii :=
  if (65 <=? byte c) && (byte c <=? 90) then chr8 (byte c + 32) else c.

(** A text of ASCII characters only. *)
Definition is_ascii (s : string) : Prop := Forall (λ c, byte c < 128) (chars s).

(** The text of one code point. *)
Definition letter (cp : Z) : string := text (utf8 cp).

(** A code point that a text can hold: no surrogate. *)
Definition scalar (cp : Z) : Prop :=
  0 ≤ cp < 0x110000 ∧ ¬ (0xD800 ≤ cp < 0xE000).

(** The text of the code points [cps]. *)
Definition encode (cps : list Z) : string := text (cps ≫= utf8).

(** Runs of capital letters with the distance to their small letters:
    Basic Latin, Latin-1, Greek and Cyrillic. *)
Definition capital_letters : list (Z * Z * Z) :=
  [(0x41, 0x5A, 0x20); (0xC0, 0xD6, 0x20); (0xD8, 0xDE, 0x20);
   (0x391, 0x3A1, 0x20); (0x3A3, 0x3AB, 0x20);
   (0x400, 0x40F, 0x50); (0x410, 0x42F, 0x20)].

(** Semicolon, comma or newline. *)
Definition is_separator (c : ascii) : bool :=
  bool_decide (c = ";"%char ∨ c = ","%char ∨ c = newline).

(** Splitting on every character that [sep] accepts. *)
Fixpoint split_any (sep : ascii → bool) (s : string) : list string :=
  match s with
  | EmptyString => [EmptyString]
  | String c s' =>
      if sep c then EmptyString :: split_any sep s'
      else match split_any sep s' with
           | [] => [String c EmptyString]
           | p :: ps => String c p :: ps
           end
  end.

(** The entries whose lower-case form has not occurred before them. *)
Fixpoint first_occurrences (l : list string) : list string :=
  match l with
  | [] => []
  | t :: l' => t :: filter (λ u, lower u ≠ lower t) (first_occurrences l')
  end.

(** The chat that [get_chat] makes for a key that is not in [db]. *)
Definition default_chat (now : string) : chat_record := ChatRecord None [] None now.

(** The chat of [chat_id] as a handler sees it after [get_chat]: the stored
    record, or the default one. *)
Definition current (chat_id : Z) (now : string) (file : data_file) : chat_record :=
  default (default_chat now) (default ∅ file !! str chat_id).

(** The memory [m] is the one loaded from [file], up to the dictionary [d]
    of the chat [key] and the list that [d] refers to. *)
Definition view (key : string) (file : data_file) (m : memory) (d : chat_dict) : Prop :=
  db m = <[key := d]> (db (load_db file)) ∧
  (∀ k, k ≠ key → list_get m (Loaded k) = list_get (load_db file) (Loaded k)) ∧
  (d_teams d = Loaded key ∨ ∃ n, d_teams d = Fresh n).

(** The name that [cmd_new] gives. *)
Definition new_name (args : list string) (today : string) : string :=
  let s := strip (join " " args) in
  if decide (s = EmptyString) then "Tournament " +:+ today else s.

(** The incoming names that [cmd_add] appends to [existing]. *)
Definition added_teams (existing new : list string) : list string :=
  filter (λ t, lower t ∉ lower <$> existing) new.

(** The record of a chat in [DATA_FILE], and its fields; a chat that is not
    stored has no team, no bracket and no name. *)
Definition stored_chat (chat_id : Z) (file : data_file) : option chat_record :=
  default ∅ file !! str chat_id.
Definition stored_teams (chat_id : Z) (file : data_file) : list string :=
  default [] (teams <$> stored_chat chat_id file).
Definition stored_bracket (chat_id : Z) (file : data_file) : option Bracket :=
  stored_chat chat_id file ≫= bracket.

(** Files for the examples. *)
Definition sample_file : data_file :=
  Some {[ "5" := ChatRecord (Some "Cup") ["Alpha"; "Beta"; "Gamma"] None "t0" ]}.

(** A draw leaves the stored team list as it was. *)
Definition draw_keeps_order : Prop :=
  ∀ fuel drawn chat_id now file r,
    2 ≤ len (stored_teams chat_id file) →
    cmd_draw fuel drawn chat_id now file = Some r →
    stored_teams chat_id (file_after r) = stored_teams chat_id file.

Definition other_file : data_file :=
  Some {[ "5" := ChatRecord None ["x"] None "t0";
          "-7" := ChatRecord (Some "League") ["Alpha"; "Beta"; "Gamma"]
                    (Some (mkBracket 1 [])) "t9" ]}.

(** No two entries agree up to case. *)
Definition unique_ci (l : list string) : Prop := NoDup (lower <$> l).

(** [unique_ci] holds of the teams of every stored chat. *)
Definition file_unique (file : data_file) : Prop :=
  ∀ content key c, file = Some content → content !! key = Some c →
                   unique_ci (teams c).

(** The separators of [_normalize_teams], as texts. *)
Definition separator_codes : list (list ascii) :=
  [[";"%char]; [","%char]; [newline]].

(** The rows of a round, and of the rounds, with the numbering carried
    along. *)
Fixpoint match_rows (r_idx m_idx : Z) (rnd : Round) : list (list string) :=
  match rnd with
  | [] => []
  | (a, b) :: rest => [str r_idx; str m_idx; a; b] :: match_rows r_idx (m_idx + 1) rest
  end.

Fixpoint round_rows (r_idx : Z) (rounds : list Round) : list (list string) :=
  match rounds with
  | [] => []
  | rnd :: rest => match_rows r_idx 1 rnd ++ round_rows (r_idx + 1) rest
  end.

(** The number of pairs in the rounds before round [ri] (0-based). *)
Definition pairs_before (rounds : list Round) (ri : nat) : nat :=
  sum_list (length <$> take ri rounds).

Definition drawn_file : data_file :=
  Some {[ "5" := ChatRecord (Some "Cup") ["Gamma"; "Beta"; "Alpha"]
                   (Some (mkBracket 100000 (build_full_bracket ["Gamma"; "Beta"; "Alpha"])))
                   "t0" ]}.

(** [build_first_round] by recursion on the list, two teams at a time. *)
Fixpoint pair_up (teams : list string) : Round :=
  match teams with
  | [] => []
  | [a] => [(a, BYE)]
  | a :: b :: rest => (a, b) :: pair_up rest
  end.

(** The slots of a round, in order. *)
Definition slots (rnd : Round) : list string :=
  rnd ≫= λ p, [p.1; p.2].

(** Every character of [s] satisfies [P]. *)
Fixpoint string_forall (P : ascii → bool) (s : string) : bool :=
  match s with
  | EmptyString => true
  | String c s' => P c && string_forall P s'
  end.

Definition not_separator (c : ascii) : bool := negb (is_separator c).

Definition stored_name (chat_id : Z) (file : data_file) : option string :=
  stored_chat chat_id file ≫= name.

Definition two_file : data_file :=
  Some {[ "9" := ChatRecord None ["Ada"; "Bob"] None "t0" ]}.

(** The texts with an empty text between two consecutive ones. *)
Fixpoint with_blank (texts : list string) : list string :=
  match texts with
  | [] => []
  | [t] => [t]
  | t :: rest => t :: EmptyString :: with_blank rest
  end.

(** * Properties *)

Lemma placeholder_rounds_step rounds m :
  placeholder_rounds rounds m =
  if decide (m > 1)
  then placeholder_rounds (rounds ++ [next_round_of rounds m]) (len (next_round_of rounds m))
  else rounds.
Proof.
  rewrite (placeholder_rounds_equation_1 rounds m).
  destruct (decide (m > 1)) as [g|g].
  - by rewrite placeholder_rounds_clause_1_equation_1.
  - by rewrite placeholder_rounds_clause_1_equation_2.
Qed.

Lemma len_app {A} (l1 l2 : list A) : len (l1 ++ l2) = len l1 + len l2.
Proof. unfold len. rewrite length_app. lia. Qed.

Lemma pow2_half (k : nat) : (2 ^ Z.of_nat (S k) + 1) / 2 = 2 ^ Z.of_nat k.
Proof.
  rewrite Nat2Z.inj_succ, Z.pow_succ_r by lia.
  replace (2 * 2 ^ Z.of_nat k + 1) with (1 + 2 ^ Z.of_nat k * 2) by lia.
  rewrite Z.div_add by lia. done.
Qed.

Lemma placeholder_rounds_pow2 (k : nat) rounds :
  placeholder_rounds rounds (2 ^ Z.of_nat k) = rounds ++ later_rounds (len rounds) k.
Proof.
  revert rounds. induction k as [|k IH]; intros rounds.
  - rewrite placeholder_rounds_step. simpl. by rewrite app_nil_r.
  - rewrite placeholder_rounds_step.
    assert (0 < 2 ^ Z.of_nat k) by (apply Z.pow_pos_nonneg; lia).
    assert (2 ^ Z.of_nat (S k) = 2 * 2 ^ Z.of_nat k) as Hp
      by (rewrite Nat2Z.inj_succ, Z.pow_succ_r by lia; done).
    destruct (decide _) as [_|]; [|lia].
    rewrite len_next_round_of, pow2_half.
    rewrite Z.max_r by lia. rewrite IH, len_app.
    rewrite <- app_assoc. f_equal.
Qed.

Lemma range_lookup stop step (i : nat) x :
  range stop step !! i = Some x → x = step * Z.of_nat i.
Proof.
  unfold range. rewrite list_lookup_fmap.
  destruct (seq _ _ !! i) as [j|] eqn:E; [|done].
  apply lookup_seq in E as [-> _]. by intros [= <-].
Qed.

Lemma winners_round_lookup r m (i : nat) p :
  winners_round r m !! i = Some p →
  p = (winner_of r (2 * Z.of_nat i + 1), winner_of r (2 * Z.of_nat i + 2)).
Proof.
  unfold winners_round. rewrite list_lookup_fmap.
  destruct (range m 2 !! i) as [x|] eqn:E; [|done].
  apply range_lookup in E as ->. by intros [= <-].
Qed.

Lemma len_winners_round r (k : nat) : len (winners_round r (2 ^ Z.of_nat (S k))) = 2 ^ Z.of_nat k.
Proof.
  unfold winners_round, len. rewrite length_fmap. fold (len (range (2 ^ Z.of_nat (S k)) 2)).
  rewrite len_range by lia. replace (2 ^ Z.of_nat (S k) + 2 - 1) with (2 ^ Z.of_nat (S k) + 1) by lia.
  rewrite pow2_half. assert (0 < 2 ^ Z.of_nat k) by (apply Z.pow_pos_nonneg; lia). lia.
Qed.

Lemma later_rounds_lookup r (k j : nat) rnd :
  later_rounds r k !! j = Some rnd →
  (j < k)%nat ∧ rnd = winners_round (r + Z.of_nat j) (2 ^ Z.of_nat (k - j)).
Proof.
  revert r j. induction k as [|k IH]; intros r j; [done|].
  destruct j as [|j]; simpl.
  - intros [= <-]. split; [lia|]. by rewrite Z.add_0_r.
  - intros H. apply IH in H as [? ->]. split; [lia|].
    f_equal. lia.
Qed.

Lemma length_later_rounds r k : length (later_rounds r k) = k.
Proof. revert r. induction k; intros; simpl; f_equal; auto. Qed.

Lemma next_power_of_two_pow2 n :
  ∃ k : nat, next_power_of_two n = 2 ^ Z.of_nat k ∧ n ≤ 2 ^ Z.of_nat k.
Proof.
  unfold next_power_of_two. destruct (Z.ltb_spec n 1).
  - exists 0%nat. simpl. lia.
  - rewrite Z.shiftl_1_l. unfold bit_length.
    destruct (Z.eqb_spec (n - 1) 0) as [E|E].
    + exists 0%nat. simpl. lia.
    + rewrite Z.abs_eq by lia.
      pose proof (Z.log2_nonneg (n - 1)).
      exists (Z.to_nat (Z.log2 (n - 1) + 1)). rewrite Z2Nat.id by lia.
      split; [done|]. pose proof (Z.log2_spec (n - 1)).
      replace (Z.succ (Z.log2 (n - 1))) with (Z.log2 (n - 1) + 1) in * by lia. lia.
Qed.

Lemma len_padded seed_teams : len (padded seed_teams) = next_power_of_two (len seed_teams).
Proof.
  unfold padded. rewrite len_app. unfold len at 2. rewrite length_replicate.
  destruct (next_power_of_two_pow2 (len seed_teams)) as (k & -> & ?). lia.
Qed.

Lemma len_build_first_round teams : len (build_first_round teams) = (len teams + 1) / 2.
Proof.
  unfold build_first_round, len at 1. rewrite length_fmap. fold (len (range (len teams) 2)).
  rewrite len_range by lia. replace (len teams + 2 - 1) with (len teams + 1) by lia.
  assert (0 ≤ (len teams + 1) / 2) by (apply Z.div_pos; unfold len; lia). lia.
Qed.

Lemma build_full_bracket_structure seed_teams :
  ∃ k : nat,
    len (build_first_round (padded seed_teams)) = 2 ^ Z.of_nat k ∧
    build_full_bracket seed_teams =
      build_first_round (padded seed_teams) :: later_rounds 1 k.
Proof.
  assert (∃ k : nat, len (build_first_round (padded seed_teams)) = 2 ^ Z.of_nat k) as [k Hk].
  { rewrite len_build_first_round, len_padded.
    destruct (next_power_of_two_pow2 (len seed_teams)) as ([|k] & -> & _).
    - by exists 0%nat.
    - exists k. apply pow2_half. }
  exists k. split; [done|].
  unfold build_full_bracket. fold (padded seed_teams).
  cbv zeta. rewrite Hk. by rewrite placeholder_rounds_pow2.
Qed.

Lemma build_full_bracket_round_len seed_teams :
  ∃ k : nat,
    length (build_full_bracket seed_teams) = S k ∧
    ∀ (j : nat) a, build_full_bracket seed_teams !! j = Some a →
                   (j ≤ k)%nat ∧ len a = 2 ^ Z.of_nat (k - j).
Proof.
  destruct (build_full_bracket_structure seed_teams) as (k & Hk & ->).
  exists k. split; [by simpl; rewrite length_later_rounds|].
  intros [|j] a; simpl.
  - intros [= <-]. split; [lia|]. by rewrite Nat.sub_0_r.
  - intros H. apply later_rounds_lookup in H as [Hj ->]. split; [lia|].
    replace (k - j)%nat with (S (k - S j)) by lia. apply len_winners_round.
Qed.

(** C2. For every team list of length [n], [build_full_bracket] returns a
    non-empty list of rounds; round 1 has [ceil(next_power_of_two(n)/2)]
    pairs (written [(next_power_of_two n + 1) / 2]); every later round has
    exactly half the pairs of the round before it; the last round has
    exactly 1 pair. *)
Theorem bracket_shape (seedTeams : list string) :
  let n := len seedTeams in
  let rs := build_full_bracket seedTeams in
  rs ≠ [] ∧
  (∃ r1, rs !! 0%nat = Some r1 ∧ len r1 = (next_power_of_two n + 1) / 2) ∧
  (∀ (k : nat) a b, rs !! k = Some a → rs !! S k = Some b →
                    len b = len a / 2 ∧ len a = 2 * len b) ∧
  (∃ rl, last rs = Some rl ∧ len rl = 1).
Proof.
  intros n rs. destruct (build_full_bracket_round_len seedTeams) as (k & Hlen & Hr).
  fold rs in Hlen, Hr.
  split; [|split; [|split; [intros j a b Ha Hb; split|]]].
  - intros E. by rewrite E in Hlen.
  - destruct (build_full_bracket_structure seedTeams) as (k' & Hk & E).
    fold rs in E. rewrite E. eexists; split; [done|].
    by rewrite len_build_first_round, len_padded.
  - apply Hr in Ha as [? ->]. apply Hr in Hb as [? ->].
    replace (k - j)%nat with (S (k - S j)) by lia.
    rewrite Nat2Z.inj_succ, Z.pow_succ_r by lia.
    rewrite (Z.mul_comm 2), Z.div_mul; lia.
  - apply Hr in Ha as [? ->]. apply Hr in Hb as [? ->].
    replace (k - j)%nat with (S (k - S j)) by lia.
    rewrite Nat2Z.inj_succ, Z.pow_succ_r; lia.
  - rewrite last_lookup, Hlen. simpl.
    destruct (rs !! k) as [rl|] eqn:E.
    + exists rl. split; [done|]. apply Hr in E as [_ ->]. by rewrite Nat.sub_diag.
    + apply lookup_ge_None in E. lia.
Qed.

Lemma numeral_go_acc d (acc : positive) :
  numeral_go (NilEmpty.string_of_uint d) (Z.pos acc)
  = Some (Z.pos (Pos.of_uint_acc d acc)).
Proof.
  revert acc. induction d as [|d IH|d IH|d IH|d IH|d IH|d IH|d IH|d IH|d IH|d IH];
    intros acc; [done|..]; cbn [NilEmpty.string_of_uint numeral_go Pos.of_uint_acc];
    change (digit_value _) with (Some 0) || change (digit_value _) with (Some 1)
    || change (digit_value _) with (Some 2) || change (digit_value _) with (Some 3)
    || change (digit_value _) with (Some 4) || change (digit_value _) with (Some 5)
    || change (digit_value _) with (Some 6) || change (digit_value _) with (Some 7)
    || change (digit_value _) with (Some 8) || change (digit_value _) with (Some 9);
    cbv iota; rewrite <- IH; f_equal; lia.
Qed.

Lemma numeral_go_zero d :
  numeral_go (NilEmpty.string_of_uint d) 0 = Some (Z.of_N (Pos.of_uint d)).
Proof.
  induction d as [|d IH|d IH|d IH|d IH|d IH|d IH|d IH|d IH|d IH|d IH];
    [done|exact IH|..]; apply (numeral_go_acc d).
Qed.

Lemma str_pos p : str (Z.pos p) = NilEmpty.string_of_uint (Pos.to_uint p).
Proof.
  unfold str. simpl. pose proof (Unsigned.to_uint_nonnil p). by destruct (Pos.to_uint p).
Qed.

Lemma nzhead_no_zero d : ∀ d', nzhead d ≠ D0 d'.
Proof. induction d; simpl; done. Qed.

Lemma to_uint_no_zero p d : Pos.to_uint p ≠ D0 d.
Proof.
  pose proof (Unsigned.to_of (Pos.to_uint p)) as H. rewrite Unsigned.of_to in H.
  change (N.to_uint (N.pos p)) with (Pos.to_uint p) in H.
  pose proof (Unsigned.to_uint_nonzero p) as Hz.
  pose proof (nzhead_no_zero (Pos.to_uint p)) as Hn.
  unfold unorm in H. intros E.
  destruct (nzhead (Pos.to_uint p)) as [|d'|?|?|?|?|?|?|?|?|?];
    congruence.
Qed.

Lemma numeral_str z :
  0 ≤ z → numeral (str z) = Some z ∧ (0 < z → ∀ rest, str z ≠ String "0" rest).
Proof.
  intros Hz. destruct z as [|p|p]; [by split; [|lia]| |lia]. rewrite str_pos. split.
  - pose proof (Unsigned.to_uint_nonnil p) as Hn.
    assert (numeral (NilEmpty.string_of_uint (Pos.to_uint p))
            = numeral_go (NilEmpty.string_of_uint (Pos.to_uint p)) 0) as ->
      by (by destruct (Pos.to_uint p)).
    by rewrite numeral_go_zero, Unsigned.of_to.
  - intros _ rest E. pose proof (to_uint_no_zero p) as Hn.
    destruct (Pos.to_uint p); try done. by eapply Hn.
Qed.

(** C4. In every bracket that [build_full_bracket] makes, pair [i] (0-based)
    of the round that follows round [r] (1-based) is
    [("Winner of R{r}M{2i+1}", "Winner of R{r}M{2i+2}")], with the numbers
    written in decimal digits, without a leading zero. A round of more than
    1 pair is followed by a round of half as many pairs; the bracket ends
    with a round of exactly 1 pair, and a round has 1 pair if and only if it
    is the last one. *)
Theorem later_round_synthesis (seedTeams : list string) :
  let rs := build_full_bracket seedTeams in
  (∀ (r i : nat) rnd p,
     (1 ≤ r)%nat → rs !! r = Some rnd → rnd !! i = Some p →
     p = ("Winner of R" +:+ str (Z.of_nat r) +:+ "M" +:+ str (2 * Z.of_nat i + 1),
          "Winner of R" +:+ str (Z.of_nat r) +:+ "M" +:+ str (2 * Z.of_nat i + 2))) ∧
  (∀ z, 0 ≤ z →
        numeral (str z) = Some z ∧ (0 < z → ∀ rest, str z ≠ String "0" rest)) ∧
  (∀ (r : nat) rnd,
     rs !! r = Some rnd → 1 < len rnd →
     ∃ next, rs !! S r = Some next ∧ 2 * len next = len rnd) ∧
  (∃ final, last rs = Some final ∧ len final = 1) ∧
  (∀ (r : nat) rnd, rs !! r = Some rnd → len rnd = 1 ↔ S r = length rs).
Proof.
  intros rs. split; [|split; [exact numeral_str|]].
  { destruct (build_full_bracket_structure seedTeams) as (k & Hk & E).
    fold rs in E. rewrite E. intros [|r] i rnd p Hr; [lia|]. simpl.
    intros H Hp. apply later_rounds_lookup in H as [_ ->].
    apply winners_round_lookup in Hp as ->.
    by replace (1 + Z.of_nat r) with (Z.of_nat (S r)) by lia. }
  destruct (build_full_bracket_round_len seedTeams) as (k & Hlen & Hr).
  fold rs in Hlen, Hr. split; [|split].
  - intros r rnd H Hgt. pose proof H as H'. apply Hr in H' as [Hle Hl].
    assert (r ≠ k) as Hne by (intros ->; rewrite Nat.sub_diag in Hl; simpl in Hl; lia).
    destruct (rs !! S r) as [next|] eqn:E.
    + exists next. split; [done|]. apply Hr in E as [_ ->]. rewrite Hl.
      replace (k - r)%nat with (S (k - S r)) by lia.
      rewrite Nat2Z.inj_succ, Z.pow_succ_r; lia.
    + apply lookup_ge_None in E. lia.
  - rewrite last_lookup, Hlen. simpl.
    destruct (rs !! k) as [rl|] eqn:E.
    + exists rl. split; [done|]. apply Hr in E as [_ ->]. by rewrite Nat.sub_diag.
    + apply lookup_ge_None in E. lia.
  - intros r rnd H. apply Hr in H as [? ->]. rewrite Hlen.
    split.
    + intros H1. destruct (decide (r = k)) as [->|]; [done|].
      replace (k - r)%nat with (S (k - S r)) in H1 by lia.
      rewrite Nat2Z.inj_succ, Z.pow_succ_r in H1 by lia.
      assert (0 < 2 ^ Z.of_nat (k - S r)) by (apply Z.pow_pos_nonneg; lia). lia.
    + intros [= ->]. by rewrite Nat.sub_diag.
Qed.

Lemma later_round_synthesis_witness :
  let teams := (λ k, "Team " +:+ str k) <$> seqZ 1 20 in
  ∃ round2 round5 : Round,
    build_full_bracket teams !! 1%nat = Some round2 ∧
    round2 !! 4%nat = Some ("Winner of R1M9", "Winner of R1M10") ∧
    build_full_bracket teams !! 4%nat = Some round5 ∧
    round5 = [("Winner of R4M1", "Winner of R4M2")] ∧
    length (build_full_bracket teams) = 5%nat.
Proof.
  intros teams.
  assert (∃ rnd p, build_full_bracket teams !! 1%nat = Some rnd ∧ rnd !! 4%nat = Some p)
    as (rnd & p & H1 & H2) by (vm_compute; eauto).
  assert (∃ rnd p, build_full_bracket teams !! 4%nat = Some rnd ∧ rnd = [p])
    as (rnd' & p' & H3 & H4) by (vm_compute; eauto).
  exists rnd, rnd'. split; [exact H1|]. split.
  { rewrite H2. f_equal.
    exact (proj1 (later_round_synthesis teams) 1%nat 4%nat rnd p (le_n 1) H1 H2). }
  split; [exact H3|]. split.
  { assert (rnd' !! 0%nat = Some p') as H5 by (by rewrite H4). rewrite H4. f_equal.
    exact (proj1 (later_round_synthesis teams) 4%nat 0%nat rnd' p' ltac:(lia) H3 H5). }
  apply (proj2 (proj2 (proj2 (proj2 (later_round_synthesis teams)))) 4%nat rnd' H3).
  rewrite H4. reflexivity.
Defined.

Lemma build_first_round_lookup teams (k : nat) p :
  build_first_round teams !! k = Some p →
  (2 * k < length teams)%nat ∧
  p = (teams !!! (2 * k)%nat,
       if decide (2 * k + 1 < length teams)%nat then teams !!! (2 * k + 1)%nat else BYE).
Proof.
  intros H. assert (Z.of_nat k < len (build_first_round teams)) as Hk.
  { apply lookup_lt_Some in H. unfold len. lia. }
  rewrite len_build_first_round in Hk. unfold len in Hk.
  assert (2 * k < length teams)%nat as Hlt.
  { apply Nat2Z.inj_lt. 
    assert (Z.of_nat k + 1 ≤ (Z.of_nat (length teams) + 1) / 2) as H1 by lia.
    pose proof (Z.mul_div_le (Z.of_nat (length teams) + 1) 2). lia. }
  split; [done|]. revert H. unfold build_first_round. rewrite list_lookup_fmap.
  destruct (range _ _ !! k) as [x|] eqn:E; [|done].
  apply range_lookup in E as ->. intros [= <-]. unfold item, len.
  replace (Z.to_nat (2 * Z.of_nat k)) with (2 * k)%nat by lia.
  replace (Z.to_nat (2 * Z.of_nat k + 1)) with (2 * k + 1)%nat by lia.
  f_equal. destruct (Z.ltb_spec (2 * Z.of_nat k + 1) (Z.of_nat (length teams)));
    destruct (decide _); try done; lia.
Qed.

(** C5, as stated, fails: with 5 teams the padded list ends with 3 BYE
    entries, and the fourth pair of round 1 is BYE against BYE, which matches
    a BYE with no team of the input at all. *)
Lemma bye_against_bye : ¬ bye_faces_last_team ["a"; "b"; "c"; "d"; "e"].
Proof.
  intros H.
  destruct (H [("a", "b"); ("c", "d"); ("e", BYE); (BYE, BYE)] (BYE, BYE))
    as (t & Ht & Hp).
  - by vm_compute.
  - set_solver.
  - by left.
  - simpl in Ht. injection Ht as <-. unfold BYE in Hp. discriminate Hp.
Qed.

(** C5 (amended). [build_full_bracket] appends all the BYE entries after the
    input teams, so round 1 pairs the padded list two by two in order: pair
    [k] is the input teams at [2k] and [2k+1] when both are in the input; it
    is the last input team against BYE when only [2k] is (at most one pair,
    for an odd number of teams); it is BYE against BYE when neither is. *)
Theorem bye_placement (seedTeams : list string) :
  ∃ byes : nat,
    Z.of_nat byes = next_power_of_two (len seedTeams) - len seedTeams ∧
    build_full_bracket seedTeams !! 0%nat
      = Some (build_first_round (seedTeams ++ replicate byes BYE)) ∧
    ∀ (k : nat) p,
      build_first_round (seedTeams ++ replicate byes BYE) !! k = Some p →
      (∃ a b, seedTeams !! (2 * k)%nat = Some a ∧
              seedTeams !! (2 * k + 1)%nat = Some b ∧ p = (a, b)) ∨
      (∃ a, seedTeams !! (2 * k)%nat = Some a ∧ last seedTeams = Some a ∧
            p = (a, BYE)) ∨
      ((length seedTeams ≤ 2 * k)%nat ∧ p = (BYE, BYE)).
Proof.
  exists (Z.to_nat (next_power_of_two (len seedTeams) - len seedTeams)).
  destruct (next_power_of_two_pow2 (len seedTeams)) as (j & Hj & Hn).
  split; [lia|]. fold (padded seedTeams). split.
  { destruct (build_full_bracket_structure seedTeams) as (k & _ & ->). done. }
  intros k p H. apply build_first_round_lookup in H as [Hk ->].
  pose proof (len_padded seedTeams) as Hlen. rewrite Hj in Hlen. unfold len in Hlen, Hn.
  set (n := length seedTeams) in *.
  assert (∀ i, (i < n)%nat → ∃ a, seedTeams !! i = Some a ∧ padded seedTeams !!! i = a) as Hin.
  { intros i Hi. destruct (lookup_lt_is_Some_2 seedTeams i Hi) as [a Ha].
    exists a. split; [done|]. apply list_lookup_total_correct.
    unfold padded. by rewrite lookup_app_l. }
  assert (∀ i, (n ≤ i)%nat → (i < length (padded seedTeams))%nat →
               padded seedTeams !!! i = BYE) as Hout.
  { intros i Hi Hi'. apply list_lookup_total_correct. unfold padded in *.
    rewrite lookup_app_r by done. apply lookup_replicate_2.
    rewrite length_app, length_replicate in Hi'. fold n in Hi'. lia. }
  destruct (decide (2 * k + 1 < length (padded seedTeams))%nat) as [Hk1|Hk1].
  - destruct (decide (2 * k + 1 < n)%nat).
    + left. destruct (Hin (2 * k)%nat) as (a & Ha & ->); [lia|].
      destruct (Hin (2 * k + 1)%nat) as (b & Hb & ->); [lia|]. eauto.
    + destruct (decide (2 * k < n)%nat).
      * right; left. destruct (Hin (2 * k)%nat) as (a & Ha & ->); [lia|].
        rewrite Hout by lia. exists a. split; [done|]. split; [|done].
        rewrite last_lookup. fold n. by replace (pred n) with (2 * k)%nat by lia.
      * right; right. rewrite !Hout by lia. split; [lia|done].
  - assert (length (padded seedTeams) = 2 * k + 1)%nat as Hodd by lia.
    assert (j = 0%nat) as ->.
    { destruct j; [done|]. rewrite Nat2Z.inj_succ, Z.pow_succ_r in Hlen; lia. }
    assert (k = 0%nat) as -> by (simpl in Hlen; lia). simpl in *.
    destruct (decide (0 < n)%nat).
    + right; left. destruct (Hin 0%nat) as (a & Ha & ->); [lia|].
      exists a. split; [done|]. split; [|done].
      rewrite last_lookup. fold n. by replace (pred n) with 0%nat by lia.
    + right; right. rewrite Hout by lia. split; [lia|done].
Qed.

Lemma text_chars s : text (chars s) = s.
Proof. apply string_of_list_ascii_of_string. Qed.

Lemma chars_text l : chars (text l) = l.
Proof. apply list_ascii_of_string_of_list_ascii. Qed.

Lemma chars_app a b : chars (a +:+ b) = chars a ++ chars b.
Proof. induction a as [|c a IH]; [done|]. simpl. by rewrite IH. Qed.

Lemma text_app a b : text (a ++ b) = text a +:+ text b.
Proof. induction a as [|c a IH]; [done|]. simpl. by rewrite IH. Qed.

Lemma chars_inj a b : chars a = chars b → a = b.
Proof. intros H. by rewrite <- (text_chars a), H, text_chars. Qed.

Section stripping.

Variable codes : list (list ascii).

Hypothesis codes_nonempty : Forall (λ u, u ≠ []) codes.

Hypothesis codes_prefix_free :
  Forall (λ u, Forall (λ v, u `prefix_of` v → u = v) codes) codes.

Lemma drop_code_Some l rest :
  drop_code codes l = Some rest → ∃ u, u ∈ codes ∧ l = u ++ rest.
Proof.
  unfold drop_code. destruct (filter _ codes) as [|u us] eqn:E; [done|].
  intros [= <-]. assert (u ∈ filter (λ u, u `prefix_of` l) codes) as Hu
    by (rewrite E; left).
  apply list_elem_of_filter in Hu as [[k ->] Hu]. exists u. split; [done|].
  by rewrite drop_app_length.
Qed.

Lemma drop_code_None l u :
  drop_code codes l = None → u ∈ codes → ¬ u `prefix_of` l.
Proof.
  unfold drop_code. destruct (filter _ codes) as [|v vs] eqn:E; [|done].
  intros _ Hu Hp. assert (u ∈ filter (λ u, u `prefix_of` l) codes) as H
    by (by apply list_elem_of_filter).
  rewrite E in H. by apply elem_of_nil in H.
Qed.

Lemma drop_code_is_Some l u :
  u ∈ codes → u `prefix_of` l → is_Some (drop_code codes l).
Proof.
  intros Hu Hp. destruct (drop_code codes l) eqn:E; [done|].
  by destruct (drop_code_None _ _ E Hu).
Qed.

Lemma blank_app a b : blank codes a → blank codes b → blank codes (a ++ b).
Proof.
  induction 1 as [|u l Hu _ IH]; [done|]. intros Hb.
  rewrite <- app_assoc. constructor; auto.
Qed.

Lemma blank_one u : u ∈ codes → blank codes u.
Proof. intros Hu. rewrite <- (app_nil_r u). by repeat constructor. Qed.

Lemma lstrip_go_spec fuel l :
  (length l ≤ fuel)%nat →
  ∃ ws, l = ws ++ lstrip_go codes fuel l ∧ blank codes ws ∧
        drop_code codes (lstrip_go codes fuel l) = None.
Proof.
  revert l. induction fuel as [|fuel IH]; intros l Hl.
  - destruct l; [|simpl in Hl; lia]. exists []. split; [done|].
    split; [constructor|]. simpl. destruct (drop_code codes []) eqn:E; [|done].
    apply drop_code_Some in E as (u & Hu & E). symmetry in E.
    apply app_eq_nil in E as [-> _].
    rewrite Forall_forall in codes_nonempty. by destruct (codes_nonempty _ Hu).
  - simpl. destruct (drop_code codes l) as [rest|] eqn:E.
    + apply drop_code_Some in E as (u & Hu & ->).
      assert (u ≠ []) as Hne
        by (rewrite Forall_forall in codes_nonempty; by apply codes_nonempty).
      destruct (IH rest) as (ws & Hws & Hb & Hn).
      { rewrite length_app in Hl. destruct u; [done|]. simpl in Hl. lia. }
      exists (u ++ ws). split; [by rewrite <- app_assoc, <- Hws|].
      split; [by constructor|done].
    + exists []. split; [done|]. split; [constructor|done].
Qed.

Lemma lstrip_go_fix fuel l :
  drop_code codes l = None → lstrip_go codes fuel l = l.
Proof. intros H. destruct fuel; [done|]. simpl. by rewrite H. Qed.

Lemma lstrip_go_blank fuel l :
  (length l ≤ fuel)%nat → blank codes l → lstrip_go codes fuel l = [].
Proof.
  intros Hl Hb. revert fuel Hl. induction Hb as [|u l Hu Hb IH]; intros fuel Hl.
  { by destruct (lstrip_go_spec fuel [] Hl) as (ws & Hws & _);
      symmetry in Hws; apply app_eq_nil in Hws as [_ ->]. }
  assert (u ≠ []) as Hne
    by (rewrite Forall_forall in codes_nonempty; by apply codes_nonempty).
  destruct fuel as [|fuel].
  { rewrite length_app in Hl. destruct u; [done|]. simpl in Hl. lia. }
  simpl. destruct (drop_code_is_Some (u ++ l) u Hu) as [rest E];
    [by apply prefix_app_r|].
  rewrite E. apply drop_code_Some in E as (v & Hv & E).
  assert (u = v) as <-.
  { rewrite !Forall_forall in codes_prefix_free.
    assert (u `prefix_of` u ++ l) as H1 by (by apply prefix_app_r).
    assert (v `prefix_of` u ++ l) as H2 by (rewrite E; by apply prefix_app_r).
    destruct (prefix_weak_total _ _ _ H1 H2) as [H|H].
    - pose proof (codes_prefix_free u Hu) as Hf. rewrite Forall_forall in Hf. by apply Hf.
    - pose proof (codes_prefix_free v Hv) as Hf. rewrite Forall_forall in Hf.
      symmetry. by apply Hf. }
  apply app_inv_head in E as <-. apply IH.
  rewrite length_app in Hl. destruct u; [done|]. simpl in Hl. lia.
Qed.

End stripping.

Lemma blank_reverse codes l :
  blank (reverse <$> codes) l → blank codes (reverse l).
Proof.
  induction 1 as [|u l Hu _ IH]; [constructor|].
  rewrite reverse_app. apply blank_app; [done|].
  apply list_elem_of_fmap in Hu as (v & -> & Hv). rewrite reverse_involutive.
  by apply blank_one.
Qed.

Lemma whitespace_nonempty : Forall (λ u, u ≠ []) whitespace_codes.
Proof. apply (bool_decide_unpack _). by vm_compute. Qed.

Lemma whitespace_prefix_free :
  Forall (λ u, Forall (λ v, u `prefix_of` v → u = v) whitespace_codes) whitespace_codes.
Proof. apply (bool_decide_unpack _). by vm_compute. Qed.

Lemma whitespace_rev_nonempty : Forall (λ u, u ≠ []) (reverse <$> whitespace_codes).
Proof. apply (bool_decide_unpack _). by vm_compute. Qed.

Lemma whitespace_suffix_free :
  Forall (λ u, Forall (λ v, u `prefix_of` v → u = v) (reverse <$> whitespace_codes))
         (reverse <$> whitespace_codes).
Proof. apply (bool_decide_unpack _). by vm_compute. Qed.

Lemma strip_spec s :
  ∃ ws1 ws2,
    chars s = ws1 ++ chars (strip s) ++ ws2 ∧
    blank whitespace_codes ws1 ∧ blank whitespace_codes ws2 ∧
    drop_code whitespace_codes (chars (strip s)) = None ∧
    drop_code (reverse <$> whitespace_codes) (reverse (chars (strip s))) = None.
Proof.
  unfold strip. rewrite chars_text. unfold lstrip at 1.
  destruct (lstrip_go_spec _ whitespace_nonempty (length (chars s)) (chars s))
    as (ws1 & E1 & Hb1 & Hn1); [done|].
  set (L := lstrip_go whitespace_codes (length (chars s)) (chars s)) in *.
  unfold rstrip.
  destruct (lstrip_go_spec _ whitespace_rev_nonempty (length L) (reverse L))
    as (ws & E2 & Hb2 & Hn2); [by rewrite length_reverse|].
  set (R := lstrip_go (reverse <$> whitespace_codes) (length L) (reverse L)) in *.
  assert (L = reverse R ++ reverse ws) as EL.
  { by rewrite <- reverse_app, <- E2, reverse_involutive. }
  exists ws1, (reverse ws). split; [by rewrite <- EL|].
  split; [done|]. split; [by apply blank_reverse|].
  split; [|by rewrite reverse_involutive].
  destruct (drop_code whitespace_codes (reverse R)) as [rest|] eqn:E; [|done].
  apply drop_code_Some in E as (u & Hu & E).
  destruct (drop_code_None _ L u Hn1 Hu). rewrite EL, E, <- app_assoc.
  by apply prefix_app_r.
Qed.

Lemma strip_trimmed p : trimmed p (strip p).
Proof.
  destruct (strip_spec p) as (ws1 & ws2 & E & Hb1 & Hb2 & Hn1 & Hn2).
  exists (text ws1), (text ws2). split.
  { apply chars_inj. by rewrite !chars_app, !chars_text. }
  unfold whitespace_only. rewrite !chars_text. split; [done|]. split; [done|].
  split.
  - intros (u & Hu & Hp). by destruct (drop_code_None _ _ u Hn1 Hu).
  - intros (u & Hu & Hp). apply suffix_prefix_reverse in Hp.
    destruct (drop_code_None _ _ (reverse u) Hn2); [|done].
    by apply list_elem_of_fmap_2.
Qed.

Lemma strip_empty s : strip s = EmptyString ↔ whitespace_only s.
Proof.
  split.
  - intros H. destruct (strip_spec s) as (ws1 & ws2 & E & Hb1 & Hb2 & _).
    rewrite H in E. unfold whitespace_only. rewrite E. by apply blank_app.
  - intros H. unfold strip, lstrip.
    by rewrite (lstrip_go_blank _ whitespace_nonempty whitespace_prefix_free).
Qed.

Lemma strip_idem s : strip (strip s) = strip s.
Proof.
  destruct (strip_spec s) as (_ & _ & _ & _ & _ & Hn1 & Hn2).
  unfold strip at 1. unfold lstrip. rewrite lstrip_go_fix by done.
  unfold rstrip. rewrite lstrip_go_fix by done.
  by rewrite reverse_involutive, text_chars.
Qed.

Lemma blank_mono codes codes' l :
  codes ⊆ codes' → blank codes l → blank codes' l.
Proof. intros Hs. induction 1; constructor; auto. Qed.

Lemma filter_all {A} (P : A → Prop) `{∀ x, Decision (P x)} (l : list A) :
  (∀ x, P x) → filter P l = l.
Proof.
  intros HP. induction l as [|x l IH]; [done|].
  rewrite filter_cons, decide_True by done. by rewrite IH.
Qed.

Lemma split_replace raw :
  split ";" (replace "," ";" (replace newline ";" raw)) = split_any is_separator raw.
Proof.
  induction raw as [|c raw IH]; [done|]. simpl. rewrite IH. unfold is_separator.
  destruct (decide (c = newline)) as [->|Hn].
  { by rewrite bool_decide_eq_true_2 by auto. }
  destruct (decide (c = ","%char)) as [->|Hc].
  { by rewrite bool_decide_eq_true_2 by auto. }
  destruct (decide (c = ";"%char)) as [->|Hs].
  { by rewrite bool_decide_eq_true_2 by auto. }
  rewrite bool_decide_eq_false_2 by (by intros [?|[?|?]]). done.
Qed.

Lemma first_occurrences_filter (P : string → Prop) `{∀ x, Decision (P x)} l :
  first_occurrences (filter (λ t, P (lower t)) l)
  = filter (λ t, P (lower t)) (first_occurrences l).
Proof.
  induction l as [|t l IH]; [done|]. simpl.
  rewrite !filter_cons. destruct (decide (P (lower t))) as [Ht|Ht]; simpl.
  - rewrite IH. f_equal. rewrite !list_filter_filter. apply list_filter_iff. tauto.
  - rewrite IH. rewrite list_filter_filter. apply list_filter_iff.
    intros u. split; [|tauto]. intros Hu. split; [done|]. congruence.
Qed.

Lemma dedupe_loop seen uniq l :
  (foldl dedupe_step (seen, uniq) l).2
  = uniq ++ first_occurrences (filter (λ t, lower t ∉ seen) l).
Proof.
  revert seen uniq. induction l as [|t l IH]; intros seen uniq; simpl.
  { by rewrite app_nil_r. }
  rewrite filter_cons. destruct (decide (lower t ∈ seen)) as [Ht|Ht].
  - rewrite decide_False by auto. apply IH.
  - rewrite decide_True by done. rewrite IH, <- app_assoc. simpl. do 2 f_equal.
    pose proof (first_occurrences_filter (λ k, k ≠ lower t)
                  (filter (λ t0, lower t0 ∉ seen) l)) as HF.
    etrans; [|exact HF].
    rewrite list_filter_filter. f_equal. apply list_filter_iff.
    intros u. rewrite not_elem_of_union, not_elem_of_singleton. tauto.
Qed.

Lemma normalize_first_occurrences raw :
  _normalize_teams raw
  = first_occurrences (filter (λ p, p ≠ EmptyString) (strip <$> split_any is_separator raw)).
Proof.
  unfold _normalize_teams. rewrite split_replace.
  pose proof (dedupe_loop ∅ [] (filter (λ p, p ≠ EmptyString) (strip <$> split_any is_separator raw))) as H.
  destruct (foldl _ _ _) as [seen uniq]. simpl in H. rewrite H.
  f_equal. apply filter_all. intros u. apply not_elem_of_empty.
Qed.

Lemma first_occurrences_sublist l : sublist (first_occurrences l) l.
Proof.
  induction l as [|t l IH]; simpl; [constructor|].
  apply sublist_skip. etrans; [apply sublist_filter|done].
Qed.

Lemma first_occurrences_NoDup l : NoDup (lower <$> first_occurrences l).
Proof.
  induction l as [|t l IH]; csimpl; [constructor|].
  apply NoDup_cons. split.
  - intros (u & Hu & Hin)%list_elem_of_fmap. apply list_elem_of_filter in Hin as [? _]. congruence.
  - eapply sublist_NoDup; [exact IH|]. apply fmap_sublist, sublist_filter.
Qed.

Lemma first_occurrences_cover l t :
  t ∈ l → lower t ∈ lower <$> first_occurrences l.
Proof.
  induction l as [|a l IH]; [by intros ?%elem_of_nil|].
  intros [->|Hin]%elem_of_cons; csimpl.
  - left.
  - destruct (decide (lower t = lower a)) as [->|Hne]; [left|]. right.
    apply IH in Hin. apply list_elem_of_fmap in Hin as (u & Hu & Hin).
    apply list_elem_of_fmap. exists u. split; [done|].
    apply list_elem_of_filter. split; [congruence|done].
Qed.

Lemma first_occurrences_first l u :
  u ∈ first_occurrences l →
  ∃ pre post, l = pre ++ u :: post ∧ lower u ∉ lower <$> pre.
Proof.
  induction l as [|a l IH]; [by intros ?%elem_of_nil|]. csimpl.
  intros [->|Hin]%elem_of_cons.
  - exists [], l. split; [done|]. csimpl. apply not_elem_of_nil.
  - apply list_elem_of_filter in Hin as [Hne Hin].
    destruct (IH Hin) as (pre & post & -> & Hpre).
    exists (a :: pre), post. split; [done|]. csimpl. rewrite not_elem_of_cons. done.
Qed.

Lemma code_points_ascii c l :
  byte c < 128 → code_points (c :: l) = byte c :: code_points l.
Proof.
  intros H. cbn [code_points]. by destruct (Z.ltb_spec (byte c) 128); [|lia].
Qed.

Lemma lower_step_ascii c :
  byte c < 128 →
  (byte c =? 0x3A3) = false ∧ to_lower (byte c) = [byte (ascii_lower c)] ∧
  of_code_points [byte (ascii_lower c)] = [ascii_lower c].
Proof.
  destruct c as [[] [] [] [] [] [] [] []]; intros H; try (by vm_compute in H);
    by vm_compute.
Qed.

Lemma of_code_points_cons cp cps :
  of_code_points (cp :: cps) = of_code_points [cp] ++ of_code_points cps.
Proof. unfold of_code_points. cbn [mbind list_bind]. by rewrite app_nil_r. Qed.

Lemma lower_ascii_list before l :
  Forall (λ c, byte c < 128) l →
  of_code_points (lower_code_points before (code_points l)) = ascii_lower <$> l.
Proof.
  intros H. revert before. induction H as [|c l Hc _ IH]; intros before; [done|].
  rewrite code_points_ascii by done. cbn [lower_code_points].
  destruct (lower_step_ascii c Hc) as (-> & -> & E).
  cbn [app]. by rewrite of_code_points_cons, E, IH.
Qed.

Lemma lower_capital_letters :
  Forall (λ '(lo, hi, offset),
            Forall (λ cp, lower (letter cp) = letter (cp + offset))
                   (seqZ lo (hi - lo + 1)))
         capital_letters.
Proof. apply (bool_decide_unpack _). by vm_compute. Qed.

Lemma lor_shiftl_small y d k :
  0 ≤ k → 0 ≤ d < 2 ^ k → Z.lor (y ≪ k) d = y * 2 ^ k + d.
Proof.
  intros Hk Hd. rewrite Z.shiftl_mul_pow2 by done. symmetry. apply Z.add_nocarry_lor.
  apply Z.bits_inj'. intros n Hn. rewrite Z.land_spec, Z.bits_0.
  destruct (Z.lt_ge_cases n k).
  - by rewrite Z.mul_pow2_bits_low.
  - rewrite <- (Z.mod_small d (2 ^ k)) by done.
    rewrite Z.mod_pow2_bits_high by lia. apply andb_false_r.
Qed.

Lemma forall_below (P : Z → Prop) `{∀ x, Decision (P x)} (n : Z) :
  Forall P (seqZ 0 n) → ∀ x, 0 ≤ x < n → P x.
Proof. rewrite Forall_forall. intros H' x Hx. apply H', elem_of_seqZ. lia. Qed.

Lemma continuation_byte y :
  0 ≤ y < 64 →
  let c := chr8 (Z.lor 0x80 y) in
  is_continuation c = true ∧ Z.land (byte c) 0x3F = y ∧ (byte c <? 0x80) = false.
Proof.
  revert y. apply (forall_below _ 64). apply (bool_decide_unpack _). by vm_compute.
Qed.

Lemma lead_byte_2 a :
  2 ≤ a < 32 →
  let b := byte (chr8 (Z.lor 0xC0 a)) in
  (b <? 0x80) = false ∧ (0xC2 <=? b) && (b <? 0xE0) = true ∧ Z.land b 0x1F = a.
Proof.
  intros Ha. assert (0 ≤ a < 32) as H by lia. revert a H Ha.
  apply (forall_below (λ a, 2 ≤ a < 32 → _) 32). apply (bool_decide_unpack _). by vm_compute.
Qed.

Lemma lead_byte_3 a :
  0 ≤ a < 16 →
  let b := byte (chr8 (Z.lor 0xE0 a)) in
  (b <? 0x80) = false ∧ (0xC2 <=? b) && (b <? 0xE0) = false ∧
  (0xE0 <=? b) && (b <? 0xF0) = true ∧ Z.land b 0xF = a.
Proof.
  revert a. apply (forall_below _ 16). apply (bool_decide_unpack _). by vm_compute.
Qed.

Lemma lead_byte_4 a :
  0 ≤ a < 5 →
  let b := byte (chr8 (Z.lor 0xF0 a)) in
  (b <? 0x80) = false ∧ (0xC2 <=? b) && (b <? 0xE0) = false ∧
  (0xE0 <=? b) && (b <? 0xF0) = false ∧
  (0xF0 <=? b) = true ∧ (b <? 0xF5) = true ∧ Z.land b 0x7 = a.
Proof.
  revert a. apply (forall_below _ 5). apply (bool_decide_unpack _). by vm_compute.
Qed.

Lemma ascii_byte cp : 0 ≤ cp < 128 → byte (chr8 cp) = cp.
Proof.
  revert cp. apply (forall_below _ 128). apply (bool_decide_unpack _). by vm_compute.
Qed.

Lemma code_points_utf8 cp rest :
  scalar cp → code_points (utf8 cp ++ rest) = cp :: code_points rest.
Proof.
  intros [Hr Hs]. unfold utf8.
  destruct (Z.ltb_spec cp 0x80) as [H1|H1].
  { cbn [app code_points]. rewrite ascii_byte by lia.
    by destruct (Z.ltb_spec cp 0x80); [|lia]. }
  change 0x3F with (Z.ones 6). rewrite !Z.shiftr_div_pow2, !Z.land_ones; [|lia..].
  change (2 ^ 6) with 64. change (2 ^ 12) with 4096. change (2 ^ 18) with 262144.
  destruct (Z.ltb_spec cp 0x800) as [H2|H2].
  { cbn [app code_points].
    assert (2 ≤ cp / 64 < 32) as Ha by (Z.div_mod_to_equations; lia).
    assert (0 ≤ cp mod 64 < 64) as Hy by (Z.div_mod_to_equations; lia).
    destruct (lead_byte_2 _ Ha) as (-> & -> & ->).
    destruct (continuation_byte _ Hy) as (-> & -> & _).
    f_equal. rewrite lor_shiftl_small by lia. Z.div_mod_to_equations. lia. }
  destruct (Z.ltb_spec cp 0x10000) as [H3|H3].
  { cbn [app code_points].
    assert (0 ≤ cp / 4096 < 16) as Ha by (Z.div_mod_to_equations; lia).
    assert (0 ≤ (cp / 64) mod 64 < 64) as Hx by (Z.div_mod_to_equations; lia).
    assert (0 ≤ cp mod 64 < 64) as Hy by (Z.div_mod_to_equations; lia).
    destruct (lead_byte_3 _ Ha) as (-> & -> & -> & ->).
    destruct (continuation_byte _ Hx) as (-> & -> & _).
    destruct (continuation_byte _ Hy) as (-> & -> & _).
    assert (Z.lor (Z.lor ((cp / 4096) ≪ 12) (((cp / 64) mod 64) ≪ 6)) (cp mod 64) = cp) as ->.
    { replace ((cp / 4096) ≪ 12) with (((cp / 4096) ≪ 6) ≪ 6)
        by (rewrite Z.shiftl_shiftl by lia; done).
      rewrite <- Z.shiftl_lor, !lor_shiftl_small by lia. Z.div_mod_to_equations. lia. }
    destruct (Z.leb_spec 0x800 cp); [|lia].
    destruct (Z.leb_spec 0xD800 cp); destruct (Z.ltb_spec cp 0xE000); try done; lia. }
  cbn [app code_points].
  assert (0 ≤ cp / 262144 < 5) as Ha by (Z.div_mod_to_equations; lia).
  assert (0 ≤ (cp / 4096) mod 64 < 64) as Hw by (Z.div_mod_to_equations; lia).
  assert (0 ≤ (cp / 64) mod 64 < 64) as Hx by (Z.div_mod_to_equations; lia).
  assert (0 ≤ cp mod 64 < 64) as Hy by (Z.div_mod_to_equations; lia).
  destruct (lead_byte_4 _ Ha) as (-> & -> & -> & -> & -> & ->).
  destruct (continuation_byte _ Hw) as (-> & -> & _).
  destruct (continuation_byte _ Hx) as (-> & -> & _).
  destruct (continuation_byte _ Hy) as (-> & -> & _).
  assert (Z.lor (Z.lor (Z.lor ((cp / 262144) ≪ 18) (((cp / 4096) mod 64) ≪ 12))
                   (((cp / 64) mod 64) ≪ 6)) (cp mod 64) = cp) as ->.
  { replace ((cp / 262144) ≪ 18) with ((((cp / 262144) ≪ 6) ≪ 6) ≪ 6)
      by (rewrite !Z.shiftl_shiftl by lia; done).
    replace (((cp / 4096) mod 64) ≪ 12) with ((((cp / 4096) mod 64) ≪ 6) ≪ 6)
      by (rewrite !Z.shiftl_shiftl by lia; done).
    rewrite <- !Z.shiftl_lor, !lor_shiftl_small by lia. Z.div_mod_to_equations. lia. }
  cbn [andb]. destruct (Z.leb_spec 0x10000 cp); [|lia].
  by destruct (Z.ltb_spec cp 0x110000); [|lia].
Qed.

Lemma code_points_encode cps :
  Forall scalar cps → code_points (chars (encode cps)) = cps.
Proof.
  unfold encode. rewrite chars_text. induction 1 as [|cp cps Hcp _ IH]; [done|].
  cbn [mbind list_bind]. by rewrite code_points_utf8, IH.
Qed.

Lemma lower_code_points_plain before cps :
  0x3A3 ∉ cps → lower_code_points before cps = cps ≫= to_lower.
Proof.
  revert before. induction cps as [|cp cps IH]; intros before H; [done|].
  apply not_elem_of_cons in H as [Hcp H]. cbn [lower_code_points mbind list_bind].
  destruct (Z.eqb_spec cp 0x3A3); [done|]. by rewrite IH.
Qed.

Lemma of_code_points_app a b :
  of_code_points (a ++ b) = of_code_points a ++ of_code_points b.
Proof. unfold of_code_points. apply bind_app. Qed.

Lemma lower_encode cps :
  Forall scalar cps → 0x3A3 ∉ cps →
  lower (encode cps) = text (of_code_points (cps ≫= to_lower)).
Proof.
  intros Hs Hn. unfold lower. by rewrite code_points_encode, lower_code_points_plain.
Qed.

Lemma lower_letterwise cps :
  Forall scalar cps → 0x3A3 ∉ cps →
  lower (encode cps) = foldr (λ cp rest, lower (letter cp) +:+ rest) EmptyString cps.
Proof.
  intros Hs Hn. rewrite lower_encode by done.
  induction Hs as [|cp cps Hcp Hs IH]; [done|].
  apply not_elem_of_cons in Hn as [Hne Hn].
  cbn [foldr mbind list_bind]. rewrite of_code_points_app, text_app, IH by done.
  f_equal.
  assert (letter cp = encode [cp]) as ->
    by (unfold letter, encode; cbn [mbind list_bind]; by rewrite app_nil_r).
  rewrite lower_encode;
    [|by constructor|by apply not_elem_of_cons; split; [|apply not_elem_of_nil]].
  cbn [mbind list_bind]. by rewrite app_nil_r.
Qed.

(** C3. For every raw string, [_normalize_teams] is what the text says: the
    pieces are the input split on any of semicolon, comma or newline, each
    stripped, the empty ones dropped; the result keeps the first occurrence
    of every name up to case ([first_occurrences]). So it is a subsequence of
    the pieces (original casing and relative order), no two of its entries
    agree up to case, every piece has its lower-case form in it, and every
    entry is the first piece with its lower-case form.

    Stripping and case are Python's on Unicode text. A stripped piece is the
    piece without the whitespace code points at its two ends, and it neither
    starts nor ends with one. On ASCII text [lower] turns the capital letters
    A to Z into the small ones and keeps every other character; it turns
    the capital letters of Latin-1, Greek and Cyrillic into their small
    letters; and on a text without the capital sigma (whose lower case
    depends on its place in the word) it works code point by code
    point. *)
Theorem normalize_correct (raw : string) :
  let pieces := filter (λ p, p ≠ EmptyString) (strip <$> split_any is_separator raw) in
  let out := _normalize_teams raw in
  (out = first_occurrences pieces ∧
   sublist out pieces ∧
   NoDup (lower <$> out) ∧
   (∀ t, t ∈ pieces → lower t ∈ lower <$> out) ∧
   (∀ u, u ∈ out → ∃ pre post, pieces = pre ++ u :: post ∧ lower u ∉ lower <$> pre)) ∧
  (∀ p, trimmed p (strip p)) ∧
  (∀ s, is_ascii s → lower s = text (ascii_lower <$> chars s)) ∧
  (∀ lo hi offset cp,
     (lo, hi, offset) ∈ capital_letters → lo ≤ cp ≤ hi →
     lower (letter cp) = letter (cp + offset)) ∧
  (∀ cps, Forall scalar cps → 0x3A3 ∉ cps →
          lower (encode cps)
          = foldr (λ cp rest, lower (letter cp) +:+ rest) EmptyString cps).
Proof.
  intros pieces out. split; [|split; [|split; [|split; [|exact lower_letterwise]]]].
  - subst out. rewrite normalize_first_occurrences. fold pieces.
    split; [done|]. split; [apply first_occurrences_sublist|].
    split; [apply first_occurrences_NoDup|].
    split; [apply first_occurrences_cover|apply first_occurrences_first].
  - apply strip_trimmed.
  - intros s Hs. unfold lower. f_equal. by apply lower_ascii_list.
  - intros lo hi offset cp Hin Hcp. pose proof lower_capital_letters as H.
    rewrite Forall_forall in H. specialize (H _ Hin). cbn beta iota in H.
    rewrite Forall_forall in H. apply H, elem_of_seqZ. lia.
Qed.

Lemma normalize_correct_witness :
  _normalize_teams "Спартак; спартак, ΟΔΟΣ; οδος" = ["Спартак"; "ΟΔΟΣ"] ∧
  _normalize_teams (letter 0xA0 +:+ "Ajax" +:+ letter 0x3000 +:+ ";ajax;AJAX ")
  = ["Ajax"] ∧
  lower "Zürich Ä" = "zürich ä" ∧
  lower (letter 0x41F) = letter 0x43F.
Proof.
  split; [|split; [|split]].
  - exact (proj1 (proj1 (normalize_correct _))).
  - exact (proj1 (proj1 (normalize_correct _))).
  - vm_compute. reflexivity.
  - apply (proj1 (proj2 (proj2 (proj2 (normalize_correct "")))) 0x410 0x42F 0x20 0x41F);
      [vm_compute; do 6 right; left | lia].
Defined.

Lemma genrand_uint32_nonneg st : 0 ≤ (MT.genrand_uint32 st).1.
Proof.
  unfold MT.genrand_uint32. destruct (decide _); cbn [fst];
    unfold MT.u32; apply Z.land_nonneg; right; lia.
Qed.

Lemma getrandbits_words_nonneg words k st :
  0 ≤ (MT.getrandbits_words words k st).1.
Proof.
  revert k st. induction words as [|w IH]; intros k st; simpl; [done|].
  pose proof (genrand_uint32_nonneg st) as Hr.
  destruct (MT.genrand_uint32 st) as [r st1]. simpl in Hr.
  pose proof (IH (k - 32) st1) as Hhi.
  destruct (MT.getrandbits_words w (k - 32) st1) as [hi st2]. simpl in *.
  apply Z.lor_nonneg. split.
  - destruct (k <? 32); [by apply Z.shiftr_nonneg|done].
  - by apply Z.shiftl_nonneg.
Qed.

Lemma getrandbits_nonneg k st : 0 ≤ (MT.getrandbits k st).1.
Proof.
  unfold MT.getrandbits. destruct (k =? 0); [done|]. destruct (k <=? 32).
  - pose proof (genrand_uint32_nonneg st) as Hr.
    destruct (MT.genrand_uint32 st) as [r st1]. simpl in *. by apply Z.shiftr_nonneg.
  - apply getrandbits_words_nonneg.
Qed.

Lemma randbelow_loop_range fuel n k st r st' :
  MT.randbelow_loop fuel n k st = Some (r, st') → 0 ≤ r < n.
Proof.
  revert st. induction fuel as [|fuel IH]; intros st; simpl; [done|].
  pose proof (getrandbits_nonneg k st) as Hr.
  destruct (MT.getrandbits k st) as [r0 st0]. simpl in Hr.
  destruct (Z.geb_spec r0 n); [apply IH|]. intros [= <- <-]. lia.
Qed.

Lemma randbelow_range fuel n st r st' :
  MT.randbelow fuel n st = Some (r, st') → 0 ≤ r < n.
Proof. apply randbelow_loop_range. Qed.

Lemma randbelow_loop_fuel f1 f2 n k st a b :
  MT.randbelow_loop f1 n k st = Some a →
  MT.randbelow_loop f2 n k st = Some b → a = b.
Proof.
  revert f2 st. induction f1 as [|f1 IH]; intros [|f2] st; simpl; try done.
  destruct (MT.getrandbits k st) as [r0 st0].
  destruct (r0 >=? n); [apply IH|congruence].
Qed.


Lemma shuffle_loop_perm fuel i x st y :
  shuffle_loop fuel i x st = Some y → y ≡ₚ x.
Proof.
  revert x st. induction i as [|i IH]; intros x st; simpl.
  { by intros [= ->]. }
  destruct (MT.randbelow fuel _ st) as [[j st']|]; simpl; [|done].
  destruct (x !! S i) as [xi|] eqn:Hi; simpl; [|done].
  destruct (x !! Z.to_nat j) as [xj|] eqn:Hj; simpl; [|done].
  intros H. apply IH in H. rewrite H. by apply Permutation_insert_swap.
Qed.

Lemma shuffle_perm fuel seed x y : shuffle fuel seed x = Some y → y ≡ₚ x.
Proof. apply shuffle_loop_perm. Qed.

Lemma shuffle_loop_fuel f1 f2 i x st y1 y2 :
  shuffle_loop f1 i x st = Some y1 → shuffle_loop f2 i x st = Some y2 → y1 = y2.
Proof.
  revert x st. induction i as [|i IH]; intros x st; simpl.
  { congruence. }
  unfold MT.randbelow.
  destruct (MT.randbelow_loop f1 _ _ st) as [[j1 st1]|] eqn:E1; simpl; [|done].
  destruct (MT.randbelow_loop f2 _ _ st) as [[j2 st2]|] eqn:E2; simpl; [|done].
  pose proof (randbelow_loop_fuel _ _ _ _ _ _ _ E1 E2) as [= <- <-].
  destruct (x !! S i) as [xi|]; simpl; [|done].
  destruct (x !! Z.to_nat j1) as [xj|]; simpl; [|done].
  apply IH.
Qed.

Lemma shuffle_fuel f1 f2 seed x y1 y2 :
  shuffle f1 seed x = Some y1 → shuffle f2 seed x = Some y2 → y1 = y2.
Proof. apply shuffle_loop_fuel. Qed.



Lemma load_db_lookup file k :
  db (load_db file) !! k = load_chat k <$> (default ∅ file !! k).
Proof. unfold load_db. simpl. rewrite map_lookup_imap. by destruct (_ !! k). Qed.

Lemma load_db_list file k :
  list_get (load_db file) (Loaded k) = default [] (teams <$> (default ∅ file !! k)).
Proof.
  unfold load_db, list_get. simpl.
  rewrite lookup_total_alt, lookup_kmap by apply _. rewrite lookup_fmap.
  by destruct (_ !! k).
Qed.

Lemma view_chat_get key file m d : view key file m d → chat_get m key = d.
Proof.
  intros (Hdb & _). unfold chat_get. rewrite Hdb.
  by rewrite lookup_total_insert_eq.
Qed.

Lemma view_save key file m d :
  view key file m d →
  save_db m = Some (<[key := dump_chat m d]> (default ∅ file)).
Proof.
  intros (Hdb & Hl & Ha). unfold save_db. f_equal. rewrite Hdb.
  apply map_eq. intros k. rewrite lookup_fmap.
  destruct (decide (k = key)) as [->|Hne].
  - by rewrite !lookup_insert_eq.
  - rewrite !lookup_insert_ne by done. rewrite load_db_lookup.
    destruct (default ∅ file !! k) as [r|] eqn:E; [|done]. simpl. f_equal.
    unfold dump_chat. simpl. rewrite Hl by done. rewrite load_db_list, E.
    by destruct r.
Qed.

Lemma view_chat_set key file m d f :
  view key file m d → d_teams (f d) = d_teams d →
  view key file (chat_set key f m) (f d).
Proof.
  intros (Hdb & Hl & Ha) Hf. split; [|split].
  - simpl. rewrite Hdb. apply map_eq. intros k.
    destruct (decide (k = key)) as [->|Hne].
    + by rewrite lookup_alter_eq, !lookup_insert_eq.
    + by rewrite lookup_alter_ne, !lookup_insert_ne.
  - done.
  - by rewrite Hf.
Qed.

Lemma view_set_teams key file m d n :
  view key file m d →
  view key file (chat_set key (set_teams (Fresh n)) m) (set_teams (Fresh n) d).
Proof.
  intros (Hdb & Hl & Ha). split; [|split].
  - simpl. rewrite Hdb. apply map_eq. intros k.
    destruct (decide (k = key)) as [->|Hne].
    + by rewrite lookup_alter_eq, !lookup_insert_eq.
    + by rewrite lookup_alter_ne, !lookup_insert_ne.
  - done.
  - right. by exists n.
Qed.

Lemma view_list_set key file m d l :
  view key file m d →
  view key file (list_set (d_teams d) l m) d ∧
  list_get (list_set (d_teams d) l m) (d_teams d) = l.
Proof.
  intros (Hdb & Hl & Ha). split; [split; [done|split; [|done]]|].
  - intros k Hne. rewrite <- Hl by done. unfold list_get, list_set. simpl.
    apply lookup_total_insert_ne. destruct Ha as [->|[n ->]]; congruence.
  - unfold list_get, list_set. simpl. apply lookup_total_insert_eq.
Qed.

Lemma view_new_list key file m d l :
  view key file m d →
  view key file (new_list l m).2 d ∧
  list_get (new_list l m).2 (new_list l m).1 = l ∧
  ∃ n, (new_list l m).1 = Fresh n.
Proof.
  intros (Hdb & Hl & Ha). split; [split; [done|split; [|done]]|split].
  - intros k Hne. rewrite <- Hl by done. unfold list_get, new_list. simpl.
    by apply lookup_total_insert_ne.
  - unfold list_get, new_list. simpl. apply lookup_total_insert_eq.
  - by eexists.
Qed.

Lemma view_get_chat chat_id now file :
  let '(key, m) := get_chat chat_id now (load_db file) in
  key = str chat_id ∧
  ∃ d, view key file m d ∧ dump_chat m d = current chat_id now file.
Proof.
  unfold get_chat, current. pose proof (load_db_lookup file (str chat_id)) as Hk.
  destruct (db (load_db file) !! str chat_id) as [d|] eqn:E.
  - split; [done|]. exists d.
    destruct (default ∅ file !! str chat_id) as [r|] eqn:Er; [|done].
    injection Hk as ->. split.
    + split; [by rewrite insert_id|split; [done|by left]].
    + unfold dump_chat. simpl. rewrite load_db_list, Er. by destruct r.
  - destruct (default ∅ file !! str chat_id) as [r|] eqn:Er; [done|].
    simpl. split; [done|]. eexists. split.
    + split; [done|split; [|right; by eexists]].
      intros k Hne. unfold list_get. simpl. by apply lookup_total_insert_ne.
    + unfold dump_chat, list_get, default_chat. simpl.
      by rewrite lookup_total_insert_eq.
Qed.

Lemma dump_chat_fields m d c :
  dump_chat m d = c →
  d_name d = name c ∧ list_get m (d_teams d) = teams c ∧
  d_bracket d = bracket c ∧ d_created_at d = created_at c.
Proof. by intros <-. Qed.

Lemma list_get_chat_set key f m a :
  list_get (chat_set key f m) a = list_get m a.
Proof. done. Qed.

Lemma cmd_new_eq chat_id args now today file :
  cmd_new chat_id args now today file =
  Result (Some (<[str chat_id :=
                    ChatRecord (Some (new_name args today)) [] None
                               (created_at (current chat_id now file))]>
                  (default ∅ file)))
         [ReplyCreated (new_name args today)] None.
Proof.
  unfold cmd_new. pose proof (view_get_chat chat_id now file) as H.
  destruct (get_chat chat_id now (load_db file)) as [key m].
  destruct H as (-> & d & Hv & Hd). fold (new_name args today).
  apply (view_chat_set _ _ _ _ (set_name (Some (new_name args today)))) in Hv; [|done].
  set (m1 := chat_set _ _ m) in *. set (d1 := set_name _ d) in *.
  destruct (view_new_list _ _ _ _ [] Hv) as (Hv2 & Hl & n & Hn).
  destruct (new_list [] m1) as [l m2]. simpl in Hv2, Hl, Hn. subst l.
  apply (view_set_teams _ _ _ _ n) in Hv2.
  apply (view_chat_set _ _ _ _ (set_bracket None)) in Hv2; [|done].
  rewrite (view_save _ _ _ _ Hv2). do 3 f_equal.
  apply dump_chat_fields in Hd as (_ & _ & _ & Hc).
  unfold dump_chat. simpl. rewrite !list_get_chat_set. by rewrite Hl, Hc.
Qed.

Lemma cmd_reset_eq chat_id now file :
  cmd_reset chat_id now file =
  Result (Some (<[str chat_id :=
                    ChatRecord (name (current chat_id now file)) [] None
                               (created_at (current chat_id now file))]>
                  (default ∅ file)))
         [ReplyReset] None.
Proof.
  unfold cmd_reset. pose proof (view_get_chat chat_id now file) as H.
  destruct (get_chat chat_id now (load_db file)) as [key m].
  destruct H as (-> & d & Hv & Hd).
  destruct (view_new_list _ _ _ _ [] Hv) as (Hv2 & Hl & n & Hn).
  destruct (new_list [] m) as [l m2]. simpl in Hv2, Hl, Hn. subst l.
  apply (view_set_teams _ _ _ _ n) in Hv2.
  apply (view_chat_set _ _ _ _ (set_bracket None)) in Hv2; [|done].
  rewrite (view_save _ _ _ _ Hv2). do 3 f_equal.
  apply dump_chat_fields in Hd as (Hn' & _ & _ & Hc).
  unfold dump_chat. simpl. rewrite !list_get_chat_set. by rewrite Hl, Hc, Hn'.
Qed.

Lemma add_loop key file (existing : gset string) new m d :
  view key file m d →
  let m' := foldl (λ db t, if decide (lower t ∈ existing) then db
                           else list_append (d_teams (chat_get db key)) t db)
                  m new in
  view key file m' d ∧
  list_get m' (d_teams d)
  = list_get m (d_teams d) ++ filter (λ t, lower t ∉ existing) new.
Proof.
  revert m. induction new as [|t new IH]; intros m Hv; simpl.
  { split; [done|]. by rewrite app_nil_r. }
  rewrite filter_cons. destruct (decide (lower t ∈ existing)) as [Hin|Hin].
  - rewrite decide_False by auto. by apply IH.
  - rewrite decide_True by done.
    rewrite (view_chat_get _ _ _ _ Hv). unfold list_append.
    destruct (view_list_set _ _ _ _ (list_get m (d_teams d) ++ [t]) Hv) as [Hv' Hl].
    destruct (IH _ Hv') as [Hv'' Hl'']. split; [done|].
    etrans; [exact Hl''|]. by rewrite Hl, <- app_assoc.
Qed.

Lemma cmd_add_eq chat_id args text now file :
  let c := current chat_id now file in
  let new := _normalize_teams (after_first_space text) in
  cmd_add chat_id args text now file =
  if decide (args = [] ∧ strip (after_first_space text) = EmptyString)
  then Result file [ReplyAddUsage] None
  else if decide (new = []) then Result file [ReplyUnrecognised] None
  else
    let teams' := teams c ++ added_teams (teams c) new in
    Result (Some (<[str chat_id := ChatRecord (name c) teams' (bracket c) (created_at c)]>
                    (default ∅ file)))
           [ReplyAdded (len teams' - len (teams c)) (len teams')] None.
Proof.
  intros c new. unfold cmd_add. pose proof (view_get_chat chat_id now file) as H.
  destruct (get_chat chat_id now (load_db file)) as [key m].
  destruct H as (-> & d & Hv & Hd). fold c in Hd.
  destruct (decide (_ ∧ _)); [done|]. fold new.
  destruct (decide (new = [])); [done|].
  rewrite (view_chat_get _ _ _ _ Hv).
  destruct (add_loop _ _ (list_to_set (lower <$> list_get m (d_teams d))) new _ _ Hv)
    as [Hv' Hl]. cbv zeta in Hv', Hl.
  set (m' := foldl _ m new) in *.
  rewrite (view_chat_get _ _ _ _ Hv'), (view_save _ _ _ _ Hv').
  apply dump_chat_fields in Hd as (Hn & Ht & Hb & Hc).
  assert (list_get m' (d_teams d) = teams c ++ added_teams (teams c) new) as Hl'.
  { rewrite Hl, Ht. f_equal. apply list_filter_iff. intros t.
    by rewrite elem_of_list_to_set. }
  unfold dump_chat. rewrite Hl', Hn, Hb, Hc, Ht. done.
Qed.

Lemma cmd_draw_eq fuel drawn chat_id now file :
  let c := current chat_id now file in
  cmd_draw fuel drawn chat_id now file =
  if decide (len (teams c) < 2) then Some (Result file [ReplyNeedTwoTeams] None)
  else
    shuffled ← shuffle fuel drawn (teams c);
    Some (Result
            (Some (<[str chat_id :=
                       ChatRecord (name c) shuffled
                         (Some (mkBracket drawn (build_full_bracket shuffled)))
                         (created_at c)]> (default ∅ file)))
            [ReplyDrawn drawn (build_first_round (padded shuffled))] None).
Proof.
  intros c. unfold cmd_draw. pose proof (view_get_chat chat_id now file) as H.
  destruct (get_chat chat_id now (load_db file)) as [key m].
  destruct H as (-> & d & Hv & Hd). fold c in Hd.
  rewrite (view_chat_get _ _ _ _ Hv).
  apply dump_chat_fields in Hd as (Hn & Ht & Hb & Hc). rewrite Ht.
  destruct (decide (len (teams c) < 2)); [done|].
  destruct (shuffle fuel drawn (teams c)) as [sh|]; [|done]. simpl.
  destruct (view_list_set _ _ _ _ sh Hv) as [Hv' Hl]. rewrite Hl.
  apply (view_chat_set _ _ _ _
           (set_bracket (Some (mkBracket drawn (build_full_bracket sh))))) in Hv';
    [|done].
  rewrite (view_save _ _ _ _ Hv').
  assert (build_full_bracket sh !! 0%nat = Some (build_first_round (padded sh))) as ->.
  { by destruct (build_full_bracket_structure sh) as (k & _ & ->). }
  do 4 f_equal. unfold dump_chat. simpl. rewrite list_get_chat_set.
  by rewrite Hl, Hn, Hc.
Qed.

Lemma cmd_list_eq chat_id now file :
  let c := current chat_id now file in
  cmd_list chat_id now file =
  Result file [if decide (teams c = []) then ReplyListEmpty else ReplyList (teams c)] None.
Proof.
  intros c. unfold cmd_list. pose proof (view_get_chat chat_id now file) as H.
  destruct (get_chat chat_id now (load_db file)) as [key m].
  destruct H as (-> & d & Hv & Hd). fold c in Hd.
  rewrite (view_chat_get _ _ _ _ Hv).
  apply dump_chat_fields in Hd as (Hn & Ht & Hb & Hc). rewrite Ht.
  by destruct (decide _).
Qed.

Lemma handler_chat chat_id now file :
  let '(key, m) := get_chat chat_id now (load_db file) in
  d_bracket (chat_get m key) = bracket (current chat_id now file) ∧
  d_name (chat_get m key) = name (current chat_id now file).
Proof.
  pose proof (view_get_chat chat_id now file) as H.
  destruct (get_chat chat_id now (load_db file)) as [key m].
  destruct H as (-> & d & Hv & Hd).
  rewrite (view_chat_get _ _ _ _ Hv).
  by apply dump_chat_fields in Hd as (Hn & Ht & Hb & Hc).
Qed.

Lemma current_teams chat_id now file :
  teams (current chat_id now file) = stored_teams chat_id file.
Proof. unfold current, stored_teams, stored_chat. by destruct (_ !! _). Qed.

Lemma current_bracket chat_id now file :
  bracket (current chat_id now file) = stored_bracket chat_id file.
Proof. unfold current, stored_bracket, stored_chat. by destruct (_ !! _). Qed.

Lemma stored_chat_insert chat_id c content :
  stored_chat chat_id (Some (<[str chat_id := c]> content)) = Some c.
Proof. unfold stored_chat. simpl. apply lookup_insert_eq. Qed.

Lemma cmd_draw_accepted fuel drawn chat_id now file r :
  2 ≤ len (stored_teams chat_id file) →
  cmd_draw fuel drawn chat_id now file = Some r →
  ∃ shuffled,
    shuffle fuel drawn (stored_teams chat_id file) = Some shuffled ∧
    r = Result
          (Some (<[str chat_id :=
                     ChatRecord (name (current chat_id now file)) shuffled
                       (Some (mkBracket drawn (build_full_bracket shuffled)))
                       (created_at (current chat_id now file))]> (default ∅ file)))
          [ReplyDrawn drawn (build_first_round (padded shuffled))] None.
Proof.
  intros Hlen. rewrite cmd_draw_eq. cbv zeta. rewrite current_teams.
  rewrite decide_False by lia.
  destruct (shuffle _ _ _) as [sh|]; [|done]. simpl. intros [= <-]. eauto.
Qed.

(** C1, as stated, fails: the draw does change the order of the stored team
    list. With the teams Alpha, Beta, Gamma stored and the seed 100000 drawn,
    the stored list after the draw is Gamma, Beta, Alpha. *)
Lemma draw_reorders_teams : ¬ draw_keeps_order.
Proof.
  intros H.
  assert (∃ r, cmd_draw 64 100000 5 "t1" sample_file = Some r ∧
               stored_teams 5 (file_after r) = ["Gamma"; "Beta"; "Alpha"])
    as (r & Hr & Ht).
  { eexists. split; vm_compute; reflexivity. }
  apply H in Hr; [|by vm_compute]. rewrite Ht in Hr. by vm_compute in Hr.
Qed.

(** C1 (amended). For every tournament with at least 2 teams, after a draw
    that returns, the stored teams sequence is the shuffle, by the drawn seed,
    of what it was before the draw: the shuffle works in place on the list
    that the chat dictionary refers to, and the stored bracket is the one
    built from that stored, shuffled list. *)
Theorem draw_stores_shuffled_order fuel drawn chat_id now file r :
  2 ≤ len (stored_teams chat_id file) →
  cmd_draw fuel drawn chat_id now file = Some r →
  ∃ shuffled,
    shuffle fuel drawn (stored_teams chat_id file) = Some shuffled ∧
    stored_teams chat_id (file_after r) = shuffled ∧
    stored_bracket chat_id (file_after r)
      = Some (mkBracket drawn (build_full_bracket shuffled)).
Proof.
  intros Hlen Hr. destruct (cmd_draw_accepted _ _ _ _ _ _ Hlen Hr) as (sh & Hs & ->).
  exists sh. split; [done|]. unfold stored_teams, stored_bracket. simpl.
  by rewrite !stored_chat_insert.
Qed.

Lemma draw_stores_shuffled_order_witness :
  2 ≤ len (stored_teams 5 sample_file) ∧
  ∃ r shuffled,
    cmd_draw 64 100000 5 "t1" sample_file = Some r ∧
    shuffle 64 100000 (stored_teams 5 sample_file) = Some shuffled ∧
    stored_teams 5 (file_after r) = shuffled ∧
    stored_bracket 5 (file_after r)
      = Some (mkBracket 100000 (build_full_bracket shuffled)).
Proof.
  split; [by vm_compute|].
  assert (∃ r, cmd_draw 64 100000 5 "t1" sample_file = Some r) as [r Hr].
  { eexists. vm_compute. reflexivity. }
  destruct (draw_stores_shuffled_order 64 100000 5 "t1" sample_file r) as (sh & H);
    [by vm_compute|exact Hr|].
  exists r, sh. tauto.
Defined.

(** C10. For every tournament with at least 2 teams, after a draw that
    returns, the stored team list is a permutation of what it was before the
    draw: the same names with the same multiplicities. *)
Theorem draw_preserves_team_multiset fuel drawn chat_id now file r :
  2 ≤ len (stored_teams chat_id file) →
  cmd_draw fuel drawn chat_id now file = Some r →
  stored_teams chat_id (file_after r) ≡ₚ stored_teams chat_id file.
Proof.
  intros Hlen Hr. destruct (cmd_draw_accepted _ _ _ _ _ _ Hlen Hr) as (sh & Hs & ->).
  unfold stored_teams at 1. simpl. rewrite stored_chat_insert. simpl.
  by apply shuffle_perm in Hs.
Qed.

Lemma draw_preserves_team_multiset_witness :
  ∃ r, cmd_draw 64 100000 5 "t1" sample_file = Some r ∧
       stored_teams 5 (file_after r) ≡ₚ stored_teams 5 sample_file.
Proof.
  assert (∃ r, cmd_draw 64 100000 5 "t1" sample_file = Some r) as [r Hr].
  { eexists. vm_compute. reflexivity. }
  exists r. split; [exact Hr|].
  apply (draw_preserves_team_multiset 64 100000 5 "t1" sample_file r);
    [by vm_compute|exact Hr].
Defined.

(** C7. The stored bracket, the stored team order and the reply of a draw
    depend on the drawn seed and on the team order before the draw only:
    two runs with the same seed and the same teams give the same of each,
    whatever the chat, its name, its old bracket, the other chats, the clock
    and the bound on the rejection loop are. *)
Theorem draw_reproducible fuel1 fuel2 drawn id1 id2 now1 now2 file1 file2 r1 r2 :
  stored_teams id1 file1 = stored_teams id2 file2 →
  2 ≤ len (stored_teams id1 file1) →
  cmd_draw fuel1 drawn id1 now1 file1 = Some r1 →
  cmd_draw fuel2 drawn id2 now2 file2 = Some r2 →
  stored_bracket id1 (file_after r1) = stored_bracket id2 (file_after r2) ∧
  stored_teams id1 (file_after r1) = stored_teams id2 (file_after r2) ∧
  replies r1 = replies r2.
Proof.
  intros Heq Hlen H1 H2.
  destruct (cmd_draw_accepted _ _ _ _ _ _ Hlen H1) as (sh1 & Hs1 & ->).
  rewrite Heq in Hlen.
  destruct (cmd_draw_accepted _ _ _ _ _ _ Hlen H2) as (sh2 & Hs2 & ->).
  rewrite Heq in Hs1. pose proof (shuffle_fuel _ _ _ _ _ _ Hs1 Hs2) as ->.
  unfold stored_teams, stored_bracket. simpl. by rewrite !stored_chat_insert.
Qed.

Lemma draw_reproducible_witness :
  ∃ r1 r2,
    cmd_draw 64 100000 5 "t1" sample_file = Some r1 ∧
    cmd_draw 9 100000 (-7) "t2" other_file = Some r2 ∧
    stored_bracket 5 (file_after r1) = stored_bracket (-7) (file_after r2) ∧
    stored_teams 5 (file_after r1) = stored_teams (-7) (file_after r2) ∧
    replies r1 = replies r2.
Proof.
  assert (∃ r, cmd_draw 64 100000 5 "t1" sample_file = Some r) as [r1 Hr1].
  { eexists. vm_compute. reflexivity. }
  assert (∃ r, cmd_draw 9 100000 (-7) "t2" other_file = Some r) as [r2 Hr2].
  { eexists. vm_compute. reflexivity. }
  exists r1, r2. split; [exact Hr1|]. split; [exact Hr2|].
  apply (draw_reproducible 64 9 100000 5 (-7) "t1" "t2" sample_file other_file);
    [by vm_compute|by vm_compute|exact Hr1|exact Hr2].
Defined.

Lemma file_unique_insert file key c :
  file_unique file → unique_ci (teams c) →
  file_unique (Some (<[key := c]> (default ∅ file))).
Proof.
  intros Hf Hc content k c' [= <-] Hk.
  destruct (decide (k = key)) as [->|Hne].
  - rewrite lookup_insert_eq in Hk. by injection Hk as <-.
  - rewrite lookup_insert_ne in Hk by done.
    destruct file as [content|]; [by eapply Hf|done].
Qed.

Lemma file_unique_stored file chat_id :
  file_unique file → unique_ci (stored_teams chat_id file).
Proof.
  intros Hf. unfold stored_teams, stored_chat.
  destruct (default ∅ file !! str chat_id) as [c|] eqn:E; simpl.
  - destruct file as [content|]; [by eapply Hf|done].
  - constructor.
Qed.

Lemma normalize_unique raw : unique_ci (_normalize_teams raw).
Proof. unfold unique_ci. rewrite normalize_first_occurrences. apply first_occurrences_NoDup. Qed.

Lemma added_teams_unique existing new :
  unique_ci existing → unique_ci new →
  unique_ci (existing ++ added_teams existing new).
Proof.
  unfold unique_ci, added_teams. intros He Hn. rewrite fmap_app.
  apply NoDup_app. split; [done|]. split.
  - intros k Hk (t & -> & Ht)%list_elem_of_fmap.
    by apply list_elem_of_filter in Ht as [Ht _].
  - eapply sublist_NoDup; [exact Hn|]. apply fmap_sublist, sublist_filter.
Qed.

Lemma split_any_nonnil sep s : split_any sep s ≠ [].
Proof.
  destruct s as [|c s]; [done|]. simpl. destruct (sep c); [done|].
  by destruct (split_any sep s).
Qed.

Lemma split_any_prefix sep x rest :
  Forall (λ c, sep c = false) x →
  split_any sep (text x +:+ rest)
  = match split_any sep rest with
    | [] => []
    | p :: ps => (text x +:+ p) :: ps
    end.
Proof.
  induction 1 as [|c x Hc _ IH].
  - change (text [] +:+ rest) with rest. by destruct (split_any sep rest).
  - change (text (c :: x) +:+ rest) with (String c (text x +:+ rest)).
    cbn [split_any]. rewrite Hc, IH. pose proof (split_any_nonnil sep rest) as H.
    destruct (split_any sep rest); [by destruct H|done].
Qed.

Lemma code_kinds :
  Forall (λ u, (match u with [c] => is_separator c | _ => false end
                || bool_decide (u ∈ whitespace_codes)
                   && forallb (λ c, negb (is_separator c)) u) = true)
         (whitespace_codes ++ separator_codes).
Proof. apply (bool_decide_unpack _). by vm_compute. Qed.

Lemma code_kind u :
  u ∈ whitespace_codes ++ separator_codes →
  (∃ c, u = [c] ∧ is_separator c = true) ∨
  (u ∈ whitespace_codes ∧ Forall (λ c, is_separator c = false) u).
Proof.
  intros Hu. pose proof code_kinds as H. rewrite Forall_forall in H.
  specialize (H u Hu). apply orb_true_iff in H as [H|H].
  - left. destruct u as [|c [|??]]; try done. eauto.
  - right. apply andb_true_iff in H as [H1 H2]. apply bool_decide_eq_true in H1.
    split; [done|]. apply Forall_forall. intros c Hc.
    rewrite forallb_forall in H2. apply negb_true_iff, H2. by apply list_elem_of_In.
Qed.

Lemma split_any_blank l :
  blank (whitespace_codes ++ separator_codes) l →
  Forall whitespace_only (split_any is_separator (text l)).
Proof.
  induction 1 as [|u l Hu _ IH].
  { repeat constructor. }
  destruct (code_kind u Hu) as [(c & -> & Hc)|[Hw Hfree]].
  - simpl. rewrite Hc. constructor; [constructor|done].
  - rewrite text_app, split_any_prefix by done.
    destruct (split_any is_separator (text l)) as [|p ps]; [done|].
    apply Forall_cons in IH as [Hp Hps]. constructor; [|done].
    unfold whitespace_only. rewrite chars_app, chars_text. by constructor.
Qed.

Lemma filter_nonempty_nil (ps : list string) :
  filter (λ p, p ≠ EmptyString) (strip <$> ps) = [] ↔ Forall whitespace_only ps.
Proof.
  induction ps as [|p ps IH]; [done|]. rewrite fmap_cons, filter_cons, Forall_cons.
  rewrite <- strip_empty. destruct (decide (strip p ≠ EmptyString)) as [Hp|Hp].
  - split; [done|]. by intros [? _].
  - rewrite IH. apply dec_stable in Hp. tauto.
Qed.

Lemma normalize_blank raw :
  strip raw = EmptyString → _normalize_teams raw = [].
Proof.
  intros H%strip_empty. rewrite normalize_first_occurrences.
  assert (Forall whitespace_only (split_any is_separator raw)) as Hall.
  { rewrite <- (text_chars raw). apply split_any_blank.
    eapply blank_mono; [|exact H]. intros u Hu. apply elem_of_app. by left. }
  apply filter_nonempty_nil in Hall. by rewrite Hall.
Qed.

(** C6. That no two entries of a chat's team list agree up to case is kept by
    every command that writes the file: [cmd_new], [cmd_add], [cmd_draw] and
    [cmd_reset] (and it holds of the empty list that [get_chat] or [cmd_new]
    start from). An accepted [cmd_add] appends exactly the incoming names
    whose lower-case form is not in the list yet, and the incoming names
    have no duplicate up to case among themselves. *)
Theorem teams_unique_invariant (file : data_file) (chat_id : Z) (now : string) :
  file_unique file →
  (∀ args today, file_unique (file_after (cmd_new chat_id args now today file))) ∧
  (∀ args text, file_unique (file_after (cmd_add chat_id args text now file))) ∧
  (∀ fuel drawn r, cmd_draw fuel drawn chat_id now file = Some r →
                   file_unique (file_after r)) ∧
  file_unique (file_after (cmd_reset chat_id now file)) ∧
  (∀ args text,
     let new := _normalize_teams (after_first_space text) in
     new ≠ [] →
     unique_ci new ∧
     stored_teams chat_id (file_after (cmd_add chat_id args text now file))
     = stored_teams chat_id file
       ++ filter (λ t, lower t ∉ lower <$> stored_teams chat_id file) new).
Proof.
  intros Hf. pose proof (file_unique_stored _ chat_id Hf) as Hs.
  split; [|split; [|split; [|split]]].
  - intros args today. rewrite cmd_new_eq. simpl.
    apply file_unique_insert; [done|constructor].
  - intros args text. rewrite cmd_add_eq. cbv zeta.
    destruct (decide (_ ∧ _)); [done|]. destruct (decide (_ = [])); [done|]. simpl.
    apply file_unique_insert; [done|]. simpl. rewrite current_teams.
    apply added_teams_unique; [done|apply normalize_unique].
  - intros fuel drawn r. rewrite cmd_draw_eq. cbv zeta.
    destruct (decide (_ < 2)); [by intros [= <-]|].
    rewrite current_teams.
    destruct (shuffle _ _ _) as [sh|] eqn:E; [|done]. simpl. intros [= <-]. simpl.
    apply file_unique_insert; [done|]. simpl. unfold unique_ci.
    apply shuffle_perm in E. by rewrite E.
  - rewrite cmd_reset_eq. simpl. apply file_unique_insert; [done|constructor].
  - intros args text new Hnew. split; [apply normalize_unique|].
    rewrite cmd_add_eq. cbv zeta. fold new.
    assert (¬ (args = [] ∧ strip (after_first_space text) = EmptyString)) as Hargs.
    { intros [_ Hempty]. apply Hnew. subst new. revert Hempty. apply normalize_blank. }
    rewrite decide_False by done. rewrite decide_False by done. simpl.
    unfold stored_teams at 1. rewrite stored_chat_insert. simpl.
    by rewrite current_teams.
Qed.

Lemma sample_file_unique : file_unique sample_file.
Proof.
  intros content key c [= <-] [_ <-]%lookup_singleton_Some.
  unfold unique_ci. apply (bool_decide_unpack _). by vm_compute.
Qed.

Lemma teams_unique_invariant_witness :
  file_unique sample_file ∧
  file_unique
    (file_after (cmd_add 5 ["x"] "/add alpha; Спартак; СПАРТАК; Delta" "t1" sample_file)) ∧
  stored_teams 5
    (file_after (cmd_add 5 ["x"] "/add alpha; Спартак; СПАРТАК; Delta" "t1" sample_file))
  = ["Alpha"; "Beta"; "Gamma"; "Спартак"; "Delta"].
Proof.
  split; [exact sample_file_unique|].
  destruct (teams_unique_invariant sample_file 5 "t1" sample_file_unique)
    as (_ & Hadd & _ & _ & Hteams).
  split; [apply Hadd|].
  destruct (Hteams ["x"] "/add alpha; Спартак; СПАРТАК; Delta") as [_ ->]; by vm_compute.
Defined.

(** C8. A rejected command leaves [DATA_FILE] as it was: [cmd_add] when
    [_normalize_teams] finds no name, [cmd_draw] with fewer than 2 teams,
    and [cmd_pairs], [cmd_bracket], [cmd_export] when the chat has no
    bracket. The rejection is decided before [save_db] is reached. *)
Theorem rejected_commands_change_nothing (chat_id : Z) (now : string) (file : data_file) :
  (∀ args text,
     _normalize_teams (after_first_space text) = [] →
     file_after (cmd_add chat_id args text now file) = file ∧
     raised (cmd_add chat_id args text now file) = None ∧
     (replies (cmd_add chat_id args text now file) = [ReplyAddUsage] ∨
      replies (cmd_add chat_id args text now file) = [ReplyUnrecognised])) ∧
  (∀ fuel drawn,
     len (stored_teams chat_id file) < 2 →
     cmd_draw fuel drawn chat_id now file
     = Some (Result file [ReplyNeedTwoTeams] None)) ∧
  (stored_bracket chat_id file = None →
   cmd_pairs chat_id now file = Result file [ReplyNoBracket] None ∧
   cmd_bracket chat_id now file = Result file [ReplyNoBracket] None ∧
   cmd_export chat_id now file = Result file [ReplyNoBracket] None).
Proof.
  split; [|split].
  - intros args text Hnew. rewrite cmd_add_eq. cbv zeta. rewrite Hnew.
    destruct (decide (_ ∧ _)); simpl; auto.
  - intros fuel drawn Hlen. rewrite cmd_draw_eq. cbv zeta.
    rewrite current_teams. by rewrite decide_True.
  - intros Hb. rewrite <- (current_bracket chat_id now) in Hb.
    pose proof (handler_chat chat_id now file) as H.
    unfold cmd_pairs, cmd_bracket, cmd_export.
    destruct (get_chat chat_id now (load_db file)) as [key m].
    destruct H as [-> _]. by rewrite Hb.
Qed.

Lemma rejected_commands_change_nothing_witness :
  let text := "/add ;" +:+ letter 0xA0 +:+ ";" in
  _normalize_teams (after_first_space text) = [] ∧
  file_after (cmd_add 5 [";"; ";"] text "t1" sample_file) = sample_file ∧
  file_after (cmd_add 5 [] "/add  ;, ;" "t1" sample_file) = sample_file ∧
  cmd_draw 64 100000 8 "t1" sample_file
  = Some (Result sample_file [ReplyNeedTwoTeams] None) ∧
  cmd_export 5 "t1" sample_file = Result sample_file [ReplyNoBracket] None.
Proof.
  intros text.
  destruct (rejected_commands_change_nothing 5 "t1" sample_file) as (Ha & _ & Hb).
  destruct (rejected_commands_change_nothing 8 "t1" sample_file) as (_ & Hd & _).
  assert (_normalize_teams (after_first_space text) = []) as Hn by (by vm_compute).
  split; [exact Hn|]. split; [by apply Ha|].
  split; [apply Ha; by vm_compute|]. split; [apply Hd; by vm_compute|].
  apply Hb. by vm_compute.
Defined.

Lemma inner_loop r_idx (s : Z) buf (rnd : Round) :
  foldl (λ buf '(m_idx, (a, b)), writerow buf [str r_idx; str m_idx; a; b]) buf
        (imap (λ i x, (Z.of_nat i + s, x)) rnd)
  = buf ++ match_rows r_idx s rnd.
Proof.
  revert s buf. induction rnd as [|[a b] rnd IH]; intros s buf; simpl.
  { by rewrite app_nil_r. }
  rewrite (imap_ext _ (λ i x, (Z.of_nat i + (s + 1), x))).
  2:{ intros i x _. simpl. f_equal. lia. }
  rewrite IH. unfold writerow. by rewrite <- app_assoc.
Qed.

Lemma outer_loop (s : Z) buf (rounds : list Round) :
  foldl (λ buf '(r_idx, rnd),
           foldl (λ buf '(m_idx, (a, b)), writerow buf [str r_idx; str m_idx; a; b])
                 buf (enumerate1 rnd))
        buf (imap (λ i x, (Z.of_nat i + s, x)) rounds)
  = buf ++ round_rows s rounds.
Proof.
  revert s buf. induction rounds as [|rnd rounds IH]; intros s buf; simpl.
  { by rewrite app_nil_r. }
  rewrite (imap_ext _ (λ i x, (Z.of_nat i + (s + 1), x))).
  2:{ intros i x _. simpl. f_equal. lia. }
  rewrite IH. unfold enumerate1. rewrite inner_loop. by rewrite <- app_assoc.
Qed.

Lemma export_rows_eq buf rounds : export_rows buf rounds = buf ++ round_rows 1 rounds.
Proof. unfold export_rows, enumerate1. apply outer_loop. Qed.

Lemma length_match_rows r s rnd : length (match_rows r s rnd) = length rnd.
Proof. revert s. induction rnd as [|[a b] rnd IH]; intros s; simpl; [done|]. by rewrite IH. Qed.

Lemma match_rows_lookup r s rnd (mi : nat) a b :
  rnd !! mi = Some (a, b) →
  match_rows r s rnd !! mi = Some [str r; str (s + Z.of_nat mi); a; b].
Proof.
  revert s mi. induction rnd as [|[a' b'] rnd IH]; intros s mi; [done|].
  destruct mi as [|mi]; simpl.
  - intros [= -> ->]. by rewrite Z.add_0_r.
  - intros H. rewrite (IH _ _ H). do 3 f_equal. f_equal. lia.
Qed.

Lemma length_round_rows s rounds :
  length (round_rows s rounds) = sum_list (length <$> rounds).
Proof.
  revert s. induction rounds as [|rnd rounds IH]; intros s; simpl; [done|].
  by rewrite length_app, length_match_rows, IH.
Qed.

Lemma round_rows_lookup s rounds (ri mi : nat) rnd a b :
  rounds !! ri = Some rnd → rnd !! mi = Some (a, b) →
  round_rows s rounds !! (pairs_before rounds ri + mi)%nat
  = Some [str (s + Z.of_nat ri); str (Z.of_nat mi + 1); a; b].
Proof.
  revert s ri. induction rounds as [|r0 rounds IH]; intros s ri; [done|].
  destruct ri as [|ri].
  - intros [= ->] Hm. change (pairs_before (rnd :: rounds) 0) with 0%nat.
    cbn [round_rows Nat.add].
    rewrite lookup_app_l by (rewrite length_match_rows; by eapply lookup_lt_Some).
    rewrite (match_rows_lookup _ _ _ _ _ _ Hm).
    by rewrite Z.add_0_r, (Z.add_comm 1).
  - intros Hr Hm.
    change (pairs_before (r0 :: rounds) (S ri))
      with (length r0 + pairs_before rounds ri)%nat.
    cbn [round_rows].
    rewrite lookup_app_r by (rewrite length_match_rows; lia).
    rewrite length_match_rows.
    replace (length r0 + pairs_before rounds ri + mi - length r0)%nat
      with (pairs_before rounds ri + mi)%nat by lia.
    rewrite (IH _ _ Hr Hm).
    by replace (s + Z.of_nat (S ri)) with (s + 1 + Z.of_nat ri) by lia.
Qed.

(** C9. For every stored bracket, [cmd_export] sends one document whose
    first row is [Round, Match, Team A, Team B], followed by exactly one row
    per pair of every round, round by round and match by match, numbered
    from 1 with no gap, each row with the two slots of its pair. *)
Theorem export_correct (chat_id : Z) (now : string) (file : data_file) (br : Bracket) :
  stored_bracket chat_id file = Some br →
  ∃ rows filename,
    cmd_export chat_id now file = Result file [ReplyDocument rows filename] None ∧
    rows !! 0%nat = Some ["Round"; "Match"; "Team A"; "Team B"] ∧
    length rows = S (sum_list (length <$> rounds br)) ∧
    ∀ (ri mi : nat) rnd a b,
      rounds br !! ri = Some rnd → rnd !! mi = Some (a, b) →
      rows !! S (pairs_before (rounds br) ri + mi)
      = Some [str (Z.of_nat ri + 1); str (Z.of_nat mi + 1); a; b].
Proof.
  intros Hb. rewrite <- (current_bracket chat_id now) in Hb.
  pose proof (handler_chat chat_id now file) as H. unfold cmd_export.
  destruct (get_chat chat_id now (load_db file)) as [key m].
  destruct H as [-> _]. rewrite Hb. cbv zeta. rewrite export_rows_eq.
  eexists _, _. split; [reflexivity|]. split; [done|]. split.
  - unfold writerow. simpl. by rewrite length_round_rows.
  - intros ri mi rnd a b Hr Hm. unfold writerow. simpl.
    rewrite (round_rows_lookup _ _ _ _ _ _ _ Hr Hm).
    by rewrite (Z.add_comm 1).
Qed.

Lemma export_correct_witness :
  ∃ br rows filename,
    stored_bracket 5 drawn_file = Some br ∧
    cmd_export 5 "t1" drawn_file = Result drawn_file [ReplyDocument rows filename] None ∧
    length rows = 4%nat ∧
    rows !! 2%nat = Some ["1"; "2"; "Alpha"; "BYE"] ∧
    rows !! 3%nat = Some ["2"; "1"; "Winner of R1M1"; "Winner of R1M2"].
Proof.
  assert (∃ br, stored_bracket 5 drawn_file = Some br) as [br Hbr].
  { eexists. vm_compute. reflexivity. }
  destruct (export_correct 5 "t1" drawn_file br Hbr) as (rows & fn & He & _ & Hl & Hrows).
  exists br, rows, fn. split; [exact Hbr|]. split; [exact He|].
  assert (rounds br = [[("Gamma", "Beta"); ("Alpha", "BYE")];
                       [("Winner of R1M1", "Winner of R1M2")]]) as Hr.
  { vm_compute in Hbr. by injection Hbr as <-. }
  rewrite Hr in Hl, Hrows. split; [exact Hl|]. split.
  - exact (Hrows 0%nat 1%nat _ "Alpha" "BYE" eq_refl eq_refl).
  - exact (Hrows 1%nat 0%nat _ "Winner of R1M1" "Winner of R1M2" eq_refl eq_refl).
Defined.

(** [next_power_of_two n] is 1 for [n < 1]; in every case it is a power of
    two, at least [n], and the least such power. *)
Theorem next_power_of_two_least (n : Z) :
  (n < 1 → next_power_of_two n = 1) ∧
  ∃ k : nat,
    next_power_of_two n = 2 ^ Z.of_nat k ∧
    n ≤ next_power_of_two n ∧
    ∀ j : nat, n ≤ 2 ^ Z.of_nat j → next_power_of_two n ≤ 2 ^ Z.of_nat j.
Proof.
  split.
  { intros Hn. unfold next_power_of_two. by destruct (Z.ltb_spec n 1); [|lia]. }
  destruct (next_power_of_two_pow2 n) as (k & Hk & Hle). exists k.
  split; [done|]. split; [lia|]. intros j Hj.
  assert (0 < 2 ^ Z.of_nat j) by (apply Z.pow_pos_nonneg; lia).
  unfold next_power_of_two in *. destruct (Z.ltb_spec n 1); [lia|].
  rewrite Z.shiftl_1_l. unfold bit_length.
  destruct (Z.eqb_spec (n - 1) 0); [simpl; lia|].
  rewrite Z.abs_eq by lia. apply Z.pow_le_mono_r; [lia|].
  assert (Z.log2 (n - 1) < Z.of_nat j); [|lia].
  apply Z.log2_lt_pow2; lia.
Qed.

Lemma range_lookup_full stop step (i : nat) :
  0 < step →
  range stop step !! i
  = if decide (Z.of_nat i < (stop + step - 1) / step) then Some (step * Z.of_nat i) else None.
Proof.
  intros Hs. unfold range. rewrite list_lookup_fmap.
  destruct (decide _) as [Hi|Hi].
  - rewrite lookup_seq_lt by lia. done.
  - rewrite lookup_seq_ge by lia. done.
Qed.

Lemma build_first_round_lookup_full teams (k : nat) :
  build_first_round teams !! k
  = if decide (2 * k < length teams)%nat
    then Some (teams !!! (2 * k)%nat,
               if decide (2 * k + 1 < length teams)%nat
               then teams !!! (2 * k + 1)%nat else BYE)
    else None.
Proof.
  destruct (build_first_round teams !! k) as [p|] eqn:E.
  - apply build_first_round_lookup in E as [Hk ->].
    by destruct (decide (2 * k < length teams)%nat).
  - apply lookup_ge_None_1 in E.
    assert (len (build_first_round teams) ≤ Z.of_nat k) as Hl by (unfold len; lia).
    rewrite len_build_first_round in Hl. unfold len in Hl.
    destruct (decide (2 * k < length teams)%nat) as [Hlt|]; [exfalso|done].

    assert (Z.of_nat k + 1 ≤ (Z.of_nat (length teams) + 1) / 2); [|lia].
    apply Z.div_le_lower_bound; lia.
Qed.

Lemma build_first_round_pair_up teams : build_first_round teams = pair_up teams.
Proof.
  remember (length teams) as n eqn:Hn. revert teams Hn.
  induction (lt_wf n) as [n _ IH]. intros teams ->.
  destruct teams as [|a [|b rest]].
  - done.
  - done.
  - simpl. rewrite <- (IH (length rest)) by (simpl; lia || done).
    apply list_eq. intros [|k].
    + rewrite build_first_round_lookup_full. simpl. done.
    + simpl. rewrite !build_first_round_lookup_full. simpl length.
      destruct (decide (2 * S k < S (S (length rest)))%nat);
        destruct (decide (2 * k < length rest)%nat); try lia; [|done].
      replace (2 * S k)%nat with (S (S (2 * k))) by lia. simpl.
      replace (k + (k + 0))%nat with (2 * k)%nat by lia.
      do 2 f_equal.
      destruct (decide (S (S (2 * k + 1)) < S (S (length rest)))%nat);
        destruct (decide (2 * k + 1 < length rest)%nat); try lia; done.
Qed.

Lemma slots_pair_up teams :
  slots (pair_up teams)
  = teams ++ (if Nat.odd (length teams) then [BYE] else []).
Proof.
  remember (length teams) as n eqn:Hn. revert teams Hn.
  induction (lt_wf n) as [n _ IH]. intros teams ->.
  destruct teams as [|a [|b rest]]; [done|done|].
  simpl pair_up. unfold slots in *. rewrite bind_cons. simpl.
  rewrite (IH (length rest)) by (simpl; lia || done). done.
Qed.

(** [build_first_round] makes [ceil(len(teams)/2)] pairs, and reading the
    slots of the pairs in order gives back the teams, followed by one BYE
    when their number is odd. *)
Theorem build_first_round_slots (teams : list string) :
  len (build_first_round teams) = (len teams + 1) / 2 ∧
  slots (build_first_round teams)
  = teams ++ (if Nat.odd (length teams) then [BYE] else []).
Proof.
  split; [apply len_build_first_round|].
  rewrite build_first_round_pair_up. apply slots_pair_up.
Qed.

Lemma next_power_of_two_lt_double n : 2 ≤ n → next_power_of_two n ≤ 2 * (n - 1).
Proof.
  intros Hn. unfold next_power_of_two. destruct (Z.ltb_spec n 1); [lia|].
  rewrite Z.shiftl_1_l. unfold bit_length.
  destruct (Z.eqb_spec (n - 1) 0); [lia|]. rewrite Z.abs_eq by lia.
  pose proof (Z.log2_nonneg (n - 1)). rewrite Z.pow_add_r by lia.
  pose proof (Z.log2_spec (n - 1)). lia.
Qed.

Lemma slots_first_round_padded seedTeams :
  2 ≤ len seedTeams →
  slots (build_first_round (padded seedTeams)) = padded seedTeams.
Proof.
  intros Hn. rewrite build_first_round_pair_up, slots_pair_up.
  destruct (next_power_of_two_pow2 (len seedTeams)) as (j & Hj & Hle).
  pose proof (len_padded seedTeams) as Hp. unfold len at 1 in Hp.
  destruct j as [|j]; [simpl in *; lia|].
  assert (Nat.odd (length (padded seedTeams)) = false) as ->.
  { rewrite <- Nat.negb_even, negb_false_iff, Nat.even_spec.
    exists (Z.to_nat (2 ^ Z.of_nat j)). apply Nat2Z.inj.
    rewrite Hp, Hj, Nat2Z.inj_succ, Z.pow_succ_r by lia.
    assert (0 < 2 ^ Z.of_nat j) by (apply Z.pow_pos_nonneg; lia). lia. }
  by rewrite app_nil_r.
Qed.

(** For 2 teams or more, the slots of round 1 of the full bracket are the
    input teams in their order followed by the BYE entries; the number of
    BYEs is [next_power_of_two(n) - n], which is at most [n - 2]. *)
Theorem first_round_lists_every_team (seedTeams : list string) :
  2 ≤ len seedTeams →
  ∃ r1 (byes : nat),
    build_full_bracket seedTeams !! 0%nat = Some r1 ∧
    slots r1 = seedTeams ++ replicate byes BYE ∧
    Z.of_nat byes = next_power_of_two (len seedTeams) - len seedTeams ∧
    Z.of_nat byes ≤ len seedTeams - 2.
Proof.
  intros Hn. destruct (build_full_bracket_structure seedTeams) as (k & Hk & E).
  exists (build_first_round (padded seedTeams)),
         (Z.to_nat (next_power_of_two (len seedTeams) - len seedTeams)).
  pose proof (next_power_of_two_lt_double _ Hn).
  destruct (next_power_of_two_pow2 (len seedTeams)) as (j & Hj & Hle).
  split; [by rewrite E|]. split; [|lia].
  by rewrite slots_first_round_padded.
Qed.

Lemma first_round_lists_every_team_witness :
  2 ≤ len ["a"; "b"; "c"; "d"; "e"] ∧
  ∃ r1, build_full_bracket ["a"; "b"; "c"; "d"; "e"] !! 0%nat = Some r1 ∧
        slots r1 = ["a"; "b"; "c"; "d"; "e"; BYE; BYE; BYE].
Proof.
  split; [by vm_compute|].
  destruct (first_round_lists_every_team ["a"; "b"; "c"; "d"; "e"])
    as (r1 & byes & H1 & H2 & H3 & _); [by vm_compute|].
  exists r1. split; [exact H1|]. rewrite H2.
  change (next_power_of_two (len ["a"; "b"; "c"; "d"; "e"])
          - len ["a"; "b"; "c"; "d"; "e"]) with 3 in H3.
  assert (byes = 3%nat) as -> by lia. reflexivity.
Defined.

Lemma later_rounds_S r k :
  later_rounds r (S k) = winners_round r (2 ^ Z.of_nat (S k)) :: later_rounds (r + 1) k.
Proof. done. Qed.

Lemma len_concat_later_rounds r (k : nat) :
  len (concat (later_rounds r k)) = 2 ^ Z.of_nat k - 1.
Proof.
  revert r. induction k as [|k IH]; intros r; [done|].
  rewrite later_rounds_S. cbn [concat]. rewrite len_app, IH, len_winners_round.
  rewrite Nat2Z.inj_succ, Z.pow_succ_r by lia. lia.
Qed.

(** The full bracket of [n] teams has [max(1, bit_length(n - 1))] rounds and
    [max(1, next_power_of_two(n) - 1)] matches in all. *)
Theorem bracket_size (seedTeams : list string) :
  let n := len seedTeams in
  let rs := build_full_bracket seedTeams in
  len rs = Z.max 1 (bit_length (n - 1)) ∧
  len (concat rs) = Z.max 1 (next_power_of_two n - 1).
Proof.
  intros n rs. destruct (build_full_bracket_structure seedTeams) as (k & Hk & E).
  fold rs in E. rewrite E. cbn [concat]. rewrite len_app, len_concat_later_rounds, Hk.
  unfold len at 1. cbn [length]. rewrite length_later_rounds.
  assert (0 < 2 ^ Z.of_nat k) by (apply Z.pow_pos_nonneg; lia).
  rewrite len_build_first_round, len_padded in Hk. fold n in Hk.
  unfold next_power_of_two in *. destruct (Z.ltb_spec n 1).
  - assert (k = 0%nat) as ->.
    { destruct k; [done|]. rewrite Nat2Z.inj_succ, Z.pow_succ_r in Hk by lia.
      change ((1 + 1) / 2) with 1 in Hk. assert (0 < 2 ^ Z.of_nat k) by (apply Z.pow_pos_nonneg; lia). lia. }
    split; [|simpl; lia]. unfold bit_length. destruct (Z.eqb_spec (n - 1) 0); [lia|].
    assert (n = 0) as -> by (unfold n, len in *; lia). simpl. lia.
  - rewrite Z.shiftl_1_l in *. unfold bit_length in *.
    destruct (Z.eqb_spec (n - 1) 0).
    + change ((2 ^ 0 + 1) / 2) with 1 in Hk.
      assert (k = 0%nat) as ->.
      { destruct k; [done|]. rewrite Nat2Z.inj_succ, Z.pow_succ_r in Hk by lia.
        assert (0 < 2 ^ Z.of_nat k) by (apply Z.pow_pos_nonneg; lia). lia. }
      simpl. lia.
    + rewrite Z.abs_eq in * by lia. pose proof (Z.log2_nonneg (n - 1)).
      rewrite Z.pow_add_r in * by lia. change (2 ^ 1) with 2 in *.
      replace (2 ^ Z.log2 (n - 1) * 2 + 1) with (1 + 2 ^ Z.log2 (n - 1) * 2) in Hk by lia.
      rewrite Z.div_add in Hk by lia. change (1 / 2) with 0 in Hk.
      assert (Z.log2 (n - 1) = Z.of_nat k) as ->.
      { apply (Z.pow_inj_r 2); lia. }
      assert (0 < 2 ^ Z.of_nat k) by (apply Z.pow_pos_nonneg; lia). lia.
Qed.

Lemma string_forall_chars P s :
  string_forall P s = true ↔ Forall (λ c, P c = true) (chars s).
Proof.
  induction s as [|c s IH]; simpl; [by split; [constructor|]|].
  by rewrite andb_true_iff, Forall_cons, IH.
Qed.

Lemma string_forall_strip P s :
  string_forall P s = true → string_forall P (strip s) = true.
Proof.
  rewrite !string_forall_chars. destruct (strip_spec s) as (ws1 & ws2 & -> & _).
  by intros [_ [H _]%Forall_app]%Forall_app.
Qed.

Lemma split_any_no_separator sep s :
  Forall (λ p, string_forall (λ c, negb (sep c)) p = true) (split_any sep s).
Proof.
  induction s as [|c s IH]; simpl; [by repeat constructor|].
  destruct (sep c) eqn:Hc; [by constructor|].
  destruct (split_any sep s) as [|p ps]; [by repeat constructor; simpl; rewrite Hc|].
  apply Forall_cons in IH as [Hp Hps]. constructor; [|done]. simpl. by rewrite Hc, Hp.
Qed.

Lemma normalize_elem raw t :
  t ∈ _normalize_teams raw →
  t ≠ EmptyString ∧ ∃ p, p ∈ split_any is_separator raw ∧ t = strip p.
Proof.
  rewrite normalize_first_occurrences. intros Ht.
  eapply elem_of_sublist in Ht; [|apply first_occurrences_sublist].
  apply list_elem_of_filter in Ht as [Hne (p & -> & Hp)%list_elem_of_fmap]. eauto.
Qed.

(** Every name that [_normalize_teams] returns is non-empty, neither starts
    nor ends with a whitespace code point (so stripping it again changes
    nothing) and contains no semicolon, comma or newline. *)
Theorem normalize_names_clean (raw t : string) :
  t ∈ _normalize_teams raw →
  t ≠ EmptyString ∧
  ¬ starts_with_whitespace t ∧ ¬ ends_with_whitespace t ∧
  strip t = t ∧
  string_forall not_separator t = true.
Proof.
  intros (Hne & p & Hp & ->)%normalize_elem. split; [done|].
  destruct (strip_trimmed p) as (_ & _ & _ & _ & _ & Hs & He).
  split; [done|]. split; [done|]. split; [apply strip_idem|].
  pose proof (split_any_no_separator is_separator raw) as Hall.
  rewrite Forall_forall in Hall. specialize (Hall _ Hp).
  by apply string_forall_strip.
Qed.

Lemma normalize_names_clean_witness :
  let raw := letter 0xA0 +:+ "Ajax " +:+ letter 0x2003 +:+ ";; Спартак , ajax" in
  _normalize_teams raw = ["Ajax"; "Спартак"] ∧
  ¬ starts_with_whitespace "Ajax" ∧ ¬ ends_with_whitespace "Ajax" ∧
  strip "Ajax" = "Ajax" ∧ string_forall not_separator "Ajax" = true.
Proof.
  intros raw.
  assert (_normalize_teams raw = ["Ajax"; "Спартак"]) as E by (by vm_compute).
  split; [exact E|].
  apply (normalize_names_clean raw "Ajax"). rewrite E. left.
Defined.

Lemma split_any_head sep s p ps :
  split_any sep s = p :: ps →
  (ps = [] ∧ s = p) ∨
  (∃ c s', sep c = true ∧ s = p +:+ String c s' ∧ split_any sep s' = ps).
Proof.
  revert p ps. induction s as [|a s IH]; intros p ps; simpl.
  { intros [= <- <-]. by left. }
  destruct (sep a) eqn:Ha.
  { intros [= <- <-]. right. by exists a, s. }
  destruct (split_any sep s) as [|q qs] eqn:E; [by destruct (split_any_nonnil sep s)|].
  intros [= <- <-]. destruct (IH q qs eq_refl) as [[E1 E2]|(c & s' & Hc & E1 & Hs)].
  - left. by rewrite E1, E2.
  - right. exists c, s'. by rewrite E1.
Qed.

Lemma separator_code c :
  is_separator c = true → [c] ∈ whitespace_codes ++ separator_codes.
Proof.
  intros H. apply bool_decide_eq_true in H. apply elem_of_app. right.
  unfold separator_codes. apply list_elem_of_In.
  destruct H as [H|[H|H]]; subst c; simpl; auto.
Qed.

Lemma split_any_blank_inv ps : ∀ s p,
  split_any is_separator s = p :: ps →
  whitespace_only p → Forall whitespace_only ps →
  blank (whitespace_codes ++ separator_codes) (chars s).
Proof.
  assert (∀ p, whitespace_only p →
               blank (whitespace_codes ++ separator_codes) (chars p)) as Hmono.
  { intros p Hp. eapply blank_mono; [|exact Hp]. intros u Hu. apply elem_of_app. by left. }
  induction ps as [|q qs IH]; intros s p E Hp Hps.
  - destruct (split_any_head _ _ _ _ E) as [[_ ->]|(c & s' & _ & _ & Hs)]; [auto|].
    by destruct (split_any_nonnil is_separator s').
  - destruct (split_any_head _ _ _ _ E) as [[? _]|(c & s' & Hc & -> & Hs)]; [done|].
    apply Forall_cons in Hps as [Hq Hqs].
    rewrite chars_app. apply blank_app; [auto|].
    change (chars (String c s')) with ([c] ++ chars s').
    constructor; [by apply separator_code|]. by eapply IH.
Qed.

Lemma first_occurrences_nil l : first_occurrences l = [] → l = [].
Proof. by destruct l. Qed.

(** [_normalize_teams] finds no name exactly when the text is made of
    whitespace code points and of separators (semicolon, comma, newline)
    only. *)
Theorem normalize_empty_iff (raw : string) :
  _normalize_teams raw = [] ↔
  blank (whitespace_codes ++ separator_codes) (chars raw).
Proof.
  rewrite normalize_first_occurrences. split.
  - intros H%first_occurrences_nil. apply filter_nonempty_nil in H.
    destruct (split_any is_separator raw) as [|p ps] eqn:E;
      [by destruct (split_any_nonnil is_separator raw)|].
    apply Forall_cons in H as [Hp Hps]. by eapply split_any_blank_inv.
  - intros H. apply split_any_blank in H. rewrite text_chars in H.
    apply filter_nonempty_nil in H. by rewrite H.
Qed.

Lemma split_any_whole sep x :
  string_forall (λ c, negb (sep c)) x = true → split_any sep x = [x].
Proof.
  induction x as [|a x IH]; [done|]. simpl. intros [Ha Hx]%andb_true_iff.
  apply negb_true_iff in Ha. rewrite Ha. by rewrite IH.
Qed.

Lemma split_any_app sep x c rest :
  string_forall (λ c, negb (sep c)) x = true → sep c = true →
  split_any sep (x +:+ String c rest) = x :: split_any sep rest.
Proof.
  intros Hx Hc. induction x as [|a x IH]; simpl.
  - by rewrite Hc.
  - simpl in Hx. apply andb_true_iff in Hx as [Ha Hx].
    apply negb_true_iff in Ha. rewrite Ha. by rewrite IH.
Qed.

Lemma split_any_join (l : list string) :
  l ≠ [] →
  Forall (λ t, string_forall not_separator t = true) l →
  split_any is_separator (join ";" l) = l.
Proof.
  intros Hne Hall. induction Hall as [|x l Hx Hall IH]; [done|].
  destruct l as [|y l].
  - simpl. by apply split_any_whole.
  - change (join ";" (x :: y :: l)) with (x +:+ String ";" (join ";" (y :: l))).
    rewrite split_any_app; [|done|done]. by rewrite IH.
Qed.

Lemma filter_all_in {A} (P : A → Prop) `{∀ x, Decision (P x)} (l : list A) :
  (∀ x, x ∈ l → P x) → filter P l = l.
Proof.
  induction l as [|x l IH]; intros HP; [done|].
  rewrite filter_cons, decide_True by (apply HP; left).
  rewrite IH; [done|]. intros y Hy. apply HP. by right.
Qed.

Lemma first_occurrences_id l : NoDup (lower <$> l) → first_occurrences l = l.
Proof.
  induction l as [|t l IH]; [done|]. rewrite fmap_cons.
  intros [Ht Hl]%NoDup_cons. simpl. rewrite IH by done. f_equal.
  apply filter_all_in. intros u Hu Heq. apply Ht. rewrite <- Heq.
  by apply list_elem_of_fmap_2.
Qed.

(** The result of [_normalize_teams] is stable: joined with semicolons and
    normalised again it is the same list. *)
Theorem normalize_join_stable (raw : string) :
  _normalize_teams (join ";" (_normalize_teams raw)) = _normalize_teams raw.
Proof.
  set (l := _normalize_teams raw).
  assert (∀ t, t ∈ l → t ≠ EmptyString ∧ strip t = t ∧
                       string_forall not_separator t = true) as Hclean.
  { intros t (Hne & p & Hp & ->)%normalize_elem. split; [done|].
    split; [apply strip_idem|].
    pose proof (split_any_no_separator is_separator raw) as Hall.
    rewrite Forall_forall in Hall. specialize (Hall _ Hp).
    by apply string_forall_strip. }
  destruct (decide (l = [])) as [->|Hne]; [done|].
  rewrite normalize_first_occurrences, split_any_join; [|done|].
  2:{ apply Forall_forall. intros t Ht. by apply Hclean. }
  assert (strip <$> l = l) as ->.
  { rewrite <- (list_fmap_id l) at 2. apply Forall_fmap_ext, Forall_forall.
    intros t Ht. by apply Hclean. }
  rewrite filter_all_in by (intros t Ht; by apply Hclean).
  apply first_occurrences_id, normalize_unique.
Qed.

Lemma to_int_not_nil z : Z.to_int z ≠ Pos Nil ∧ Z.to_int z ≠ Neg Nil.
Proof.
  split; intros E; pose proof (f_equal Z.of_int E) as E';
    rewrite DecimalZ.of_to in E'; simpl in E'; subst z; discriminate E.
Qed.

Lemma str_inj a b : str a = str b → a = b.
Proof.
  unfold str. intros E. apply to_int_inj.
  destruct (to_int_not_nil a), (to_int_not_nil b).
  apply (f_equal NilZero.int_of_string) in E.
  rewrite !NilZero.isi in E by done. by injection E.
Qed.

Lemma current_name chat_id now file :
  name (current chat_id now file) = stored_name chat_id file.
Proof. unfold current, stored_name, stored_chat. by destruct (_ !! _). Qed.

Lemma stored_chat_insert_ne chat_id other c content :
  other ≠ chat_id →
  stored_chat other (Some (<[str chat_id := c]> content)) = content !! str other.
Proof.
  intros Hne. unfold stored_chat. simpl. apply lookup_insert_ne.
  intros E. by apply str_inj in E.
Qed.

(** [save_db] right after [load_db] writes back what was read, a missing or
    unreadable file as the empty object; [get_chat] in between adds the
    empty chat for an absent key and nothing for a present one. *)
Theorem save_load_roundtrip (file : data_file) (chat_id : Z) (now : string) :
  save_db (load_db file) = Some (default ∅ file) ∧
  save_db (get_chat chat_id now (load_db file)).2
  = Some (match stored_chat chat_id file with
          | Some _ => default ∅ file
          | None => <[str chat_id := default_chat now]> (default ∅ file)
          end).
Proof.
  split.
  - unfold save_db. f_equal. apply map_eq. intros k.
    rewrite lookup_fmap, load_db_lookup.
    destruct (default ∅ file !! k) as [r|] eqn:E; [|done]. simpl. f_equal.
    unfold dump_chat. simpl. rewrite load_db_list, E. by destruct r.
  - pose proof (view_get_chat chat_id now file) as H.
    destruct (get_chat chat_id now (load_db file)) as [key m].
    destruct H as (-> & d & Hv & Hd). simpl. rewrite (view_save _ _ _ _ Hv), Hd.
    f_equal. unfold current, stored_chat.
    destruct (default ∅ file !! str chat_id) as [c|] eqn:E; [|done].
    simpl. by apply insert_id.
Qed.

(** The commands of one chat that write the file ([cmd_new], [cmd_add],
    [cmd_draw], [cmd_reset]) leave the record of every other chat as it
    was. *)
Theorem other_chats_untouched (chat_id other : Z) (now : string) (file : data_file) :
  other ≠ chat_id →
  (∀ args today,
     stored_chat other (file_after (cmd_new chat_id args now today file))
     = stored_chat other file) ∧
  (∀ args text,
     stored_chat other (file_after (cmd_add chat_id args text now file))
     = stored_chat other file) ∧
  (∀ fuel drawn r,
     cmd_draw fuel drawn chat_id now file = Some r →
     stored_chat other (file_after r) = stored_chat other file) ∧
  stored_chat other (file_after (cmd_reset chat_id now file)) = stored_chat other file.
Proof.
  intros Hne. split; [|split; [|split]].
  - intros. rewrite cmd_new_eq. simpl. by apply stored_chat_insert_ne.
  - intros. rewrite cmd_add_eq. cbv zeta.
    destruct (decide (_ ∧ _)); [done|]. destruct (decide (_ = [])); [done|].
    simpl. by apply stored_chat_insert_ne.
  - intros fuel drawn r. rewrite cmd_draw_eq. cbv zeta.
    destruct (decide (_ < 2)); [by intros [= <-]|].
    destruct (shuffle _ _ _) as [sh|]; [|done]. simpl. intros [= <-]. simpl.
    by apply stored_chat_insert_ne.
  - rewrite cmd_reset_eq. simpl. by apply stored_chat_insert_ne.
Qed.

Lemma other_chats_untouched_witness :
  (-7) ≠ 5 ∧
  stored_chat (-7) (file_after (cmd_reset 5 "t3" other_file))
  = Some (ChatRecord (Some "League") ["Alpha"; "Beta"; "Gamma"]
            (Some (mkBracket 1 [])) "t9").
Proof.
  split; [lia|].
  destruct (other_chats_untouched 5 (-7) "t3" other_file) as (_ & _ & _ & ->); [lia|].
  reflexivity.
Defined.

(** [cmd_list], [cmd_pairs], [cmd_bracket] and [cmd_export] never change
    [DATA_FILE], not even for a chat that is not in it yet; [cmd_list] shows
    the stored teams in the stored order. *)
Theorem read_only_commands (chat_id : Z) (now : string) (file : data_file) :
  file_after (cmd_list chat_id now file) = file ∧
  file_after (cmd_pairs chat_id now file) = file ∧
  file_after (cmd_bracket chat_id now file) = file ∧
  file_after (cmd_export chat_id now file) = file ∧
  replies (cmd_list chat_id now file)
  = [if decide (stored_teams chat_id file = []) then ReplyListEmpty
     else ReplyList (stored_teams chat_id file)].
Proof.
  rewrite cmd_list_eq. cbv zeta. rewrite current_teams.
  unfold cmd_pairs, cmd_bracket, cmd_export.
  destruct (get_chat chat_id now (load_db file)) as [key m].
  destruct (d_bracket (chat_get m key)) as [br|]; simpl; [|done].
  by destruct (rounds br !! 0%nat).
Qed.

Lemma stored_insert chat_id c content :
  stored_teams chat_id (Some (<[str chat_id := c]> content)) = teams c ∧
  stored_bracket chat_id (Some (<[str chat_id := c]> content)) = bracket c ∧
  stored_name chat_id (Some (<[str chat_id := c]> content)) = name c.
Proof.
  unfold stored_teams, stored_bracket, stored_name.
  by rewrite !stored_chat_insert.
Qed.

Lemma current_insert chat_id now c content :
  current chat_id now (Some (<[str chat_id := c]> content)) = c.
Proof. unfold current. simpl. by rewrite lookup_insert_eq. Qed.

(** An accepted [cmd_add] changes neither the name nor the bracket of the
    chat (a bracket drawn before stays as it is), and its reply gives the
    number of names appended and the new length of the team list. *)
Theorem add_keeps_bracket_and_counts (chat_id : Z) (args : list string)
    (text now : string) (file : data_file) :
  let new := _normalize_teams (after_first_space text) in
  let r := cmd_add chat_id args text now file in
  new ≠ [] →
  stored_bracket chat_id (file_after r) = stored_bracket chat_id file ∧
  stored_name chat_id (file_after r) = stored_name chat_id file ∧
  raised r = None ∧
  replies r
  = [ReplyAdded (len (added_teams (stored_teams chat_id file) new))
                (len (stored_teams chat_id (file_after r)))].
Proof.
  intros new r Hnew. subst r. rewrite cmd_add_eq. cbv zeta. fold new.
  assert (¬ (args = [] ∧ strip (after_first_space text) = EmptyString)) as Hargs.
  { intros [_ Hempty]. apply Hnew. subst new. revert Hempty. apply normalize_blank. }
  rewrite decide_False by done. rewrite decide_False by done. simpl.
  destruct (stored_insert chat_id
              (ChatRecord (name (current chat_id now file))
                 (teams (current chat_id now file)
                  ++ added_teams (teams (current chat_id now file)) new)
                 (bracket (current chat_id now file))
                 (created_at (current chat_id now file)))
              (default ∅ file)) as (-> & -> & ->).
  simpl. rewrite current_bracket, current_name, current_teams.
  split; [done|]. split; [done|]. split; [done|]. rewrite len_app.
  do 2 f_equal. lia.
Qed.

Lemma add_keeps_bracket_and_counts_witness :
  let file := file_after (cmd_add 5 ["Спартак"] "/add Спартак" "t1" drawn_file) in
  _normalize_teams (after_first_space "/add спартак; Delta") ≠ [] ∧
  replies (cmd_add 5 ["x"] "/add Спартак" "t1" drawn_file) = [ReplyAdded 1 4] ∧
  replies (cmd_add 5 ["спартак;"; "Delta"] "/add спартак; Delta" "t2" file)
  = [ReplyAdded 1 5] ∧
  stored_bracket 5
    (file_after (cmd_add 5 ["спартак;"; "Delta"] "/add спартак; Delta" "t2" file))
  = stored_bracket 5 file.
Proof.
  intros file.
  assert (_normalize_teams (after_first_space "/add спартак; Delta") ≠ []) as H
    by (by vm_compute).
  split; [exact H|]. split; [by vm_compute|].
  destruct (add_keeps_bracket_and_counts 5 ["спартак;"; "Delta"] "/add спартак; Delta"
              "t2" file H) as (Hb & _ & _ & Hr).
  split; [|exact Hb]. rewrite Hr. by vm_compute.
Defined.

Lemma filter_none_in {A} (P : A → Prop) `{∀ x, Decision (P x)} (l : list A) :
  (∀ x, x ∈ l → ¬ P x) → filter P l = [].
Proof.
  induction l as [|x l IH]; intros HP; [done|].
  rewrite filter_cons, decide_False by (apply HP; left).
  apply IH. intros y Hy. apply HP. by right.
Qed.

Lemma added_teams_again existing new :
  added_teams (existing ++ added_teams existing new) new = [].
Proof.
  unfold added_teams. apply filter_none_in. intros t Ht Hnot. apply Hnot.
  rewrite fmap_app, elem_of_app.
  destruct (decide (lower t ∈ lower <$> existing)) as [Hin|Hin]; [by left|right].
  apply list_elem_of_fmap_2, list_elem_of_filter. done.
Qed.

(** Sending the same accepted [/add] a second time changes nothing in the
    file and replies that 0 teams were added. *)
Theorem add_twice_adds_nothing (chat_id : Z) (args : list string)
    (text now now' : string) (file : data_file) :
  let r1 := cmd_add chat_id args text now file in
  let r2 := cmd_add chat_id args text now' (file_after r1) in
  _normalize_teams (after_first_space text) ≠ [] →
  file_after r2 = file_after r1 ∧
  replies r2 = [ReplyAdded 0 (len (stored_teams chat_id (file_after r1)))].
Proof.
  intros r1 r2 Hnew. subst r1 r2. rewrite !cmd_add_eq. cbv zeta.
  assert (¬ (args = [] ∧ strip (after_first_space text) = EmptyString)) as Hargs.
  { intros [_ Hempty]. apply Hnew. revert Hempty. apply normalize_blank. }
  rewrite !(decide_False (P := _ ∧ _)) by done.
  rewrite !(decide_False (P := _ = [])) by done. cbn [file_after].
  rewrite current_insert. cbn [teams name bracket created_at].
  rewrite added_teams_again, app_nil_r. cbn [default from_option id].
  rewrite insert_insert_eq. split; [done|].
  destruct (stored_insert chat_id
              (ChatRecord (name (current chat_id now file))
                 (teams (current chat_id now file)
                  ++ added_teams (teams (current chat_id now file))
                       (_normalize_teams (after_first_space text)))
                 (bracket (current chat_id now file))
                 (created_at (current chat_id now file)))
              (default ∅ file)) as (-> & _ & _).
  cbn [replies teams]. by rewrite Z.sub_diag.
Qed.

Lemma add_twice_adds_nothing_witness :
  _normalize_teams (after_first_space "/add Спартак; alpha") ≠ [] ∧
  replies (cmd_add 5 [] "/add Спартак; alpha" "t1" sample_file) = [ReplyAdded 1 4] ∧
  replies (cmd_add 5 [] "/add Спартак; alpha" "t2"
             (file_after (cmd_add 5 [] "/add Спартак; alpha" "t1" sample_file)))
  = [ReplyAdded 0 4] ∧
  _normalize_teams (after_first_space ("/add " +:+ letter 0xA0)) = [] ∧
  cmd_add 5 [] ("/add " +:+ letter 0xA0) "t1" sample_file
  = Result sample_file [ReplyAddUsage] None.
Proof.
  assert (_normalize_teams (after_first_space "/add Спартак; alpha") ≠ []) as H
    by (by vm_compute).
  split; [exact H|]. split; [by vm_compute|]. split; [|by vm_compute].
  destruct (add_twice_adds_nothing 5 [] "/add Спартак; alpha" "t1" "t2" sample_file H)
    as [_ ->]. by vm_compute.
Defined.

(** After [cmd_reset] the chat has no team and no bracket and keeps its
    name; [cmd_list] then finds the list empty, [cmd_pairs], [cmd_bracket]
    and [cmd_export] find no bracket and [cmd_draw] asks for two teams, each
    leaving the file as the reset left it. *)
Theorem reset_then_commands (chat_id : Z) (now now' : string) (file : data_file) :
  let file' := file_after (cmd_reset chat_id now file) in
  stored_teams chat_id file' = [] ∧
  stored_bracket chat_id file' = None ∧
  stored_name chat_id file' = stored_name chat_id file ∧
  cmd_list chat_id now' file' = Result file' [ReplyListEmpty] None ∧
  cmd_pairs chat_id now' file' = Result file' [ReplyNoBracket] None ∧
  cmd_bracket chat_id now' file' = Result file' [ReplyNoBracket] None ∧
  cmd_export chat_id now' file' = Result file' [ReplyNoBracket] None ∧
  ∀ fuel drawn,
    cmd_draw fuel drawn chat_id now' file'
    = Some (Result file' [ReplyNeedTwoTeams] None).
Proof.
  intros file'. subst file'. rewrite cmd_reset_eq. cbn [file_after].
  set (c := ChatRecord _ _ _ _). set (f' := Some _).
  destruct (stored_insert chat_id c (default ∅ file)) as (Ht & Hb & Hn).
  fold f' in Ht, Hb, Hn. subst c. cbn [teams bracket name] in *.
  rewrite current_name in Hn.
  split; [done|]. split; [done|]. split; [done|]. split.
  { rewrite cmd_list_eq. cbv zeta. by rewrite current_teams, Ht. }
  rewrite <- (current_bracket chat_id now') in Hb.
  pose proof (handler_chat chat_id now' f') as H.
  unfold cmd_pairs, cmd_bracket, cmd_export.
  destruct (get_chat chat_id now' (load_db f')) as [key m].
  destruct H as [-> _]. rewrite Hb. split; [done|]. split; [done|]. split; [done|].
  intros fuel drawn. rewrite cmd_draw_eq. cbv zeta.
  rewrite current_teams, Ht. done.
Qed.

Lemma new_name_nonempty args today : new_name args today ≠ EmptyString.
Proof. unfold new_name. by destruct (decide _). Qed.

(** [cmd_new] stores a chat with no team and no bracket, under a name that
    is never empty: the stripped text of the arguments, or
    ["Tournament " + date] when that is empty. The creation time of a chat
    that existed is kept. *)
Theorem new_starts_empty (chat_id : Z) (args : list string) (now today : string)
    (file : data_file) :
  let file' := file_after (cmd_new chat_id args now today file) in
  ∃ nm,
    stored_chat chat_id file'
    = Some (ChatRecord (Some nm) [] None
              (match stored_chat chat_id file with
               | Some c => created_at c
               | None => now
               end)) ∧
    nm ≠ EmptyString ∧
    replies (cmd_new chat_id args now today file) = [ReplyCreated nm] ∧
    (strip (join " " args) ≠ EmptyString → nm = strip (join " " args)) ∧
    (strip (join " " args) = EmptyString → nm = "Tournament " +:+ today).
Proof.
  intros file'. subst file'. rewrite cmd_new_eq. cbn [file_after replies].
  exists (new_name args today). rewrite stored_chat_insert.
  split; [|split; [apply new_name_nonempty|split; [done|]]].
  - do 2 f_equal. unfold current, stored_chat. by destruct (_ !! _).
  - unfold new_name. split; intros H; by destruct (decide _).
Qed.






Lemma build_full_bracket_two x y : build_full_bracket [x; y] = [[(x, y)]].
Proof.
  unfold build_full_bracket.
  change (len [x; y]) with 2. change (next_power_of_two 2) with 2.
  change (build_first_round ([x; y] ++ replicate (Z.to_nat (2 - 2)) BYE))
    with [(x, y)].
  rewrite placeholder_rounds_step. done.
Qed.

(** A draw between exactly two teams [a] and [b] takes one random index below
    2. The command returns exactly when that draw ends within the bound: index
    0 swaps the two teams and index 1 keeps them, and the chat then has the
    two teams in that order and a bracket of one round of one pair, which
    the reply shows. *)
Theorem draw_two_teams (fuel : nat) (drawn chat_id : Z) (now : string)
    (file : data_file) (a b : string) :
  stored_teams chat_id file = [a; b] →
  match MT.randbelow fuel 2 (MT.seed drawn) with
  | None => cmd_draw fuel drawn chat_id now file = None
  | Some (j, _) =>
      let '(x, y) := if decide (j = 0) then (b, a) else (a, b) in
      ∃ r,
        cmd_draw fuel drawn chat_id now file = Some r ∧
        stored_teams chat_id (file_after r) = [x; y] ∧
        stored_bracket chat_id (file_after r) = Some (mkBracket drawn [[(x, y)]]) ∧
        replies r = [ReplyDrawn drawn [(x, y)]]
  end.
Proof.
  intros Ht. rewrite cmd_draw_eq. cbv zeta. rewrite current_teams, Ht.
  rewrite decide_False by (unfold len; simpl; lia).
  unfold shuffle. cbn [length Nat.sub shuffle_loop].
  change (Z.of_nat 1 + 1) with 2.
  destruct (MT.randbelow fuel 2 (MT.seed drawn)) as [[j st]|] eqn:E; [|done].
  apply randbelow_range in E.
  assert (∀ x y,
    let r := Result
      (Some (<[str chat_id :=
                 ChatRecord (name (current chat_id now file)) [x; y]
                   (Some (mkBracket drawn (build_full_bracket [x; y])))
                   (created_at (current chat_id now file))]> (default ∅ file)))
      [ReplyDrawn drawn (build_first_round (padded [x; y]))] None in
    stored_teams chat_id (file_after r) = [x; y] ∧
    stored_bracket chat_id (file_after r) = Some (mkBracket drawn [[(x, y)]]) ∧
    replies r = [ReplyDrawn drawn [(x, y)]]) as Hres.
  { intros x y r. subst r. cbn [file_after replies].
    set (c := ChatRecord _ _ _ _).
    destruct (stored_insert chat_id c (default ∅ file)) as (-> & -> & _).
    subst c. cbn [teams bracket]. by rewrite build_full_bracket_two. }
  destruct (decide (j = 0)) as [->|Hj].
  - eexists. split; [reflexivity|]. apply (Hres b a).
  - assert (j = 1) as -> by lia. eexists. split; [reflexivity|]. apply (Hres a b).
Qed.

Lemma draw_two_teams_witness :
  stored_teams 9 two_file = ["Ada"; "Bob"] ∧
  (∃ r x y,
     cmd_draw 64 100001 9 "t1" two_file = Some r ∧
     (x = "Ada" ∧ y = "Bob" ∨ x = "Bob" ∧ y = "Ada") ∧
     stored_bracket 9 (file_after r) = Some (mkBracket 100001 [[(x, y)]])) ∧
  cmd_draw 1 100002 9 "t1" two_file = None.
Proof.
  assert (stored_teams 9 two_file = ["Ada"; "Bob"]) as Ht by reflexivity.
  split; [exact Ht|]. split.
  - pose proof (draw_two_teams 64 100001 9 "t1" two_file "Ada" "Bob" Ht) as H.
    destruct (MT.randbelow 64 2 (MT.seed 100001)) as [[j st]|];
      [|exfalso; vm_compute in H; discriminate H].
    destruct (decide (j = 0)); destruct H as (r & Hr & _ & Hb & _).
    + exists r, "Bob", "Ada". split; [exact Hr|].
      split; [right; split; reflexivity|exact Hb].
    + exists r, "Ada", "Bob". split; [exact Hr|].
      split; [left; split; reflexivity|exact Hb].
  - pose proof (draw_two_teams 1 100002 9 "t1" two_file "Ada" "Bob" Ht) as H.
    destruct (MT.randbelow 1 2 (MT.seed 100002)) as [[j st]|] eqn:E;
      [exfalso; vm_compute in E; discriminate E|exact H].
Defined.

Lemma chunks_concat {A} (m : nat) (n : nat) (l : list A) :
  (length l ≤ n * m)%nat →
  concat ((λ k, take m (drop (k * m) l)) <$> seq 0 n) = l.
Proof.
  revert l. induction n as [|n IH]; intros l Hl.
  - destruct l; [done|simpl in Hl; lia].
  - cbn [seq fmap list_fmap concat]. rewrite <- fmap_S_seq, <- list_fmap_compose.
    rewrite (list_fmap_ext _ (λ k, take m (drop (k * m) (drop m l)))).
    2:{ intros ? k _. simpl. by rewrite drop_drop. }
    rewrite IH by (rewrite length_drop; lia). apply take_drop.
Qed.

Lemma text_chunks_eq {A} (text : list A) :
  text_chunks text
  = (λ k, take (Z.to_nat MAX) (drop (k * Z.to_nat MAX) text))
      <$> seq 0 (Z.to_nat ((len text + MAX - 1) / MAX)).
Proof.
  unfold text_chunks, range. rewrite <- list_fmap_compose. apply list_fmap_ext.
  intros _ k _. simpl. unfold slice. f_equal; [f_equal; lia|]. f_equal. unfold MAX. lia.
Qed.

(** The chunks that [cmd_bracket] sends are the text cut in order: put
    together they are the text, there are [ceil(len(text)/MAX)] of them, and
    each has at least 1 and at most [MAX] characters. *)
Theorem text_chunks_cover {A} (text : list A) :
  concat (text_chunks text) = text ∧
  len (text_chunks text) = (len text + MAX - 1) / MAX ∧
  Forall (λ chunk, 0 < len chunk ≤ MAX) (text_chunks text).
Proof.
  assert (0 ≤ (len text + MAX - 1) / MAX) as Hn
    by (apply Z.div_pos; unfold len, MAX; lia).
  split; [|split].
  - rewrite text_chunks_eq. apply chunks_concat.
    pose proof (Z.mul_succ_div_gt (len text + MAX - 1) MAX) as Hq.
    set (q := (len text + MAX - 1) / MAX) in *.
    unfold len, MAX in *. nia.
  - rewrite text_chunks_eq. unfold len at 1. rewrite length_fmap, length_seq. lia.
  - rewrite text_chunks_eq. apply Forall_fmap, Forall_forall. intros k Hk.
    apply elem_of_seq in Hk as [_ Hk]. simpl in Hk. unfold len at 1 2, compose.
    rewrite length_take, length_drop.
    assert (Z.of_nat k < (len text + MAX - 1) / MAX) as Hk' by lia.
    assert (Z.of_nat k * MAX < len text) as Hlt.
    { assert (Z.of_nat k + 1 ≤ (len text + MAX - 1) / MAX) as H1 by lia.
      pose proof (Z.mul_div_le (len text + MAX - 1) MAX). unfold MAX in *. nia. }
    unfold len, MAX in *. lia.
Qed.

Lemma bracket_tree_loop (n s : Z) (parts : list string) (rounds : list Round) :
  n = s - 1 + len rounds →
  foldl (λ parts '(i, rnd),
           let parts := parts ++ [render_pairs_text rnd i] in
           if decide (i ≠ n) then parts ++ [EmptyString] else parts)
        parts (imap (λ i x, (Z.of_nat i + s, x)) rounds)
  = parts ++ with_blank (imap (λ i rnd, render_pairs_text rnd (Z.of_nat i + s)) rounds).
Proof.
  revert s parts. induction rounds as [|rnd rounds IH]; intros s parts Hn.
  { simpl. by rewrite app_nil_r. }
  cbn [imap foldl]. 
  rewrite (imap_ext _ (λ i x, (Z.of_nat i + (s + 1), x))).
  2:{ intros i x _. simpl. f_equal. lia. }
  rewrite (imap_ext (_ ∘ S) (λ i rnd0, render_pairs_text rnd0 (Z.of_nat i + (s + 1)))).
  2:{ intros i x _. simpl. f_equal. lia. }
  rewrite IH by (unfold len in *; simpl in Hn; lia).
  change (Z.of_nat 0 + s) with s. unfold len in Hn. simpl length in Hn.
  destruct rounds as [|r' rounds'].
  - simpl in *. rewrite decide_False by lia. by rewrite app_nil_r.
  - rewrite decide_True by (simpl length in Hn; lia).
    rewrite <- !app_assoc. done.
Qed.

Lemma join_with_blank (texts : list string) :
  join nl (with_blank texts) = join (nl +:+ nl) texts.
Proof.
  induction texts as [|t [|t' rest] IH]; [done|done|].
  change (with_blank (t :: t' :: rest)) with (t :: EmptyString :: with_blank (t' :: rest)).
  change (join (nl +:+ nl) (t :: t' :: rest))
    with (t +:+ (nl +:+ nl) +:+ join (nl +:+ nl) (t' :: rest)).
  rewrite <- IH.
  destruct (with_blank (t' :: rest)) as [|w ws] eqn:E; [by destruct rest|].
  done.
Qed.

(** [render_bracket_tree] is the texts of the rounds, numbered from 1,
    with exactly one empty line between two consecutive rounds and none
    after the last. *)
Theorem render_bracket_tree_blank_lines (rounds : list Round) :
  render_bracket_tree rounds
  = join (nl +:+ nl) (imap (λ i rnd, render_pairs_text rnd (Z.of_nat i + 1)) rounds).
Proof.
  unfold render_bracket_tree, enumerate1.
  pose proof (bracket_tree_loop (len rounds) 1 [] rounds) as H.
  cbv zeta in *. rewrite H by lia. apply join_with_blank.
Qed.



